(** * mubsub: the channel of lib/channel.js

    A channel turns a capped MongoDB collection into a stream of events.  The
    code is written in continuation-passing style over the MongoDB driver and
    Node's event loop; the embedding keeps that shape.  Every callback the
    source hands to the driver, to [setTimeout] or to [process.nextTick] is a
    [task] waiting in [pending]; an [action] is either a call of the public
    API or the completion of one pending task with the outcome chosen by the
    store.  [step] runs the callback exactly as the source writes it.

    What lies outside lib/channel.js is modelled at its interface:
    - the collection is a list of documents in natural (insertion) order and
      the store assigns [_id]s above every id already present; capped
      eviction and dropping the collection are not modelled;
    - the EventEmitter is a table from event names to listeners called in
      registration order; user callbacks are opaque handles whose invocations
      are recorded, calls they make to the channel are separate actions, and
      exceptions escaping a callback are not modelled. *)

From stdpp Require Import base strings list sorting gmap.

(** ** Documents *)

Inductive value :=
| VUndef
| VBool (b : bool)
| VNum (n : Z)
| VStr (s : string).

Global Instance value_eq_dec : EqDecision value.
Proof. solve_decision. Defined.

(** A document of the collection: [{ _id, event, args }] as [publish] writes
    it, or [{ _id, dummy: true }] as [latest] writes it.  A field that is
    absent reads as [None] ([event]) or as the empty list ([args]). *)
Record doc := Doc {
  _id : nat;
  event : option string;
  args : list value;
  dummy : bool
}.

Global Instance doc_eq_dec : EqDecision doc.
Proof. solve_decision. Defined.

(** ** Options

    [retryInterval || 200] and [recreate != null || true] of the
    constructor. *)
Record options := Options {
  size_bytes : option nat;
  max_docs : option nat;
  retryInterval : option nat;
  recreate : option bool
}.

Definition default_size : nat := 1024 * 1024 * 5.

Definition norm_size (o : options) : nat :=
  match size_bytes o with
  | Some (S n) => S n
  | _ => default_size
  end.

Definition norm_retry (o : options) : nat :=
  match retryInterval o with
  | Some (S n) => S n
  | _ => 200
  end.

Definition norm_recreate (o : options) : bool :=
  match recreate o with
  | Some b => b
  | None => true
  end.

(** ** Listeners, events and the trace *)

(** What [on]/[once] stored in the emitter: a callback given to [subscribe],
    or the closure [function (collection) { collection.insert(...) }] that
    [publish] parks with [once('ready', ...)] while [listening] is null. *)
Inductive listener :=
| User (cb : nat)
| Queued (ev : string) (a : list value).

Global Instance listener_eq_dec : EqDecision listener.
Proof. solve_decision. Defined.

Inductive payload :=
| PArgs (vs : list value)
| PDoc (d : doc)
| PColl
| PErr (msg : string)
| PEvent (e : option string).

Global Instance payload_eq_dec : EqDecision payload.
Proof. solve_decision. Defined.

(** The tailable cursor [find({_id: {$gt: after}}, {tailable...})
    .sort({$natural: 1})]: it walks the collection in natural order and
    returns the documents that match; [c_pos] counts the documents walked. *)
Record cursor := Cursor { c_after : nat; c_pos : nat }.

Global Instance cursor_eq_dec : EqDecision cursor.
Proof. solve_decision. Defined.

(** Calls the channel makes to the driver and to the event loop. *)
Inductive call :=
| CCreateCollection
| CFind (q : option nat)
| CInsertDummy
| CInsert (ev : string) (a : list value)
| COpenCursor (after : nat) (retry : nat)
| CNextObject
| CNextTick
| CSetTimeout (ms : nat).

Global Instance call_eq_dec : EqDecision call.
Proof. solve_decision. Defined.

(** One observation per [emit] (with the user callbacks it invoked, in
    order) and one per call to the outside. *)
Inductive obs :=
| OEmit (name : string) (p : payload) (invoked : list nat)
| OCall (c : call).

Global Instance obs_eq_dec : EqDecision obs.
Proof. solve_decision. Defined.

(** Callbacks waiting for the outside. [latest] is the closure variable of
    the callback of [listen]. *)
Inductive task :=
| TThen (prev : option doc)
| TFind (prev : option doc)
| TDummy
| TNextObject (cur : cursor) (latest : doc)
| TNextTick (cur : cursor) (latest : doc)
| TTimeout (latest : doc)
| TInsert (ev : string) (a : list value).

Global Instance task_eq_dec : EqDecision task.
Proof. solve_decision. Defined.

(** ** The state: channel, connection, store and event loop *)

Record world := World {
  retry : nat;
  recreates : bool;
  closed : bool;
  listening : bool;
  registry : gmap string (list listener);
  destroyed : bool;
  log : list doc;
  pending : list task;
  trace : list obs
}.

Definition set_closed (b : bool) (w : world) : world :=
  World (retry w) (recreates w) b (listening w) (registry w) (destroyed w)
        (log w) (pending w) (trace w).

Definition set_listening (b : bool) (w : world) : world :=
  World (retry w) (recreates w) (closed w) b (registry w) (destroyed w)
        (log w) (pending w) (trace w).

Definition set_registry (r : gmap string (list listener)) (w : world) : world :=
  World (retry w) (recreates w) (closed w) (listening w) r (destroyed w)
        (log w) (pending w) (trace w).

Definition set_destroyed (b : bool) (w : world) : world :=
  World (retry w) (recreates w) (closed w) (listening w) (registry w) b
        (log w) (pending w) (trace w).

Definition set_log (l : list doc) (w : world) : world :=
  World (retry w) (recreates w) (closed w) (listening w) (registry w)
        (destroyed w) l (pending w) (trace w).

Definition set_pending (p : list task) (w : world) : world :=
  World (retry w) (recreates w) (closed w) (listening w) (registry w)
        (destroyed w) (log w) p (trace w).

Definition set_trace (t : list obs) (w : world) : world :=
  World (retry w) (recreates w) (closed w) (listening w) (registry w)
        (destroyed w) (log w) (pending w) t.

Definition observe (o : obs) (w : world) : world :=
  set_trace (trace w ++ [o]) w.

Definition schedule (t : task) (w : world) : world :=
  set_pending (pending w ++ [t]) w.

(** A call to the outside together with the callback left waiting. *)
Definition request (c : call) (t : task) (w : world) : world :=
  schedule t (observe (OCall c) w).

(** ** The store *)

Definition fresh_id (l : list doc) : nat := S (max_list (_id <$> l)).

Definition store_insert (ev : option string) (a : list value) (dm : bool)
    (l : list doc) : list doc :=
  l ++ [Doc (fresh_id l) ev a dm].

(** [find(latest ? {_id: latest._id} : null).sort({$natural: -1}).limit(1)] *)
Definition store_find (prev : option doc) (l : list doc) : option doc :=
  match prev with
  | None => last l
  | Some p => last (filter (λ d, _id d = _id p) l)
  end.

Fixpoint scan (after pos : nat) (l : list doc) : option (doc * cursor) :=
  match l with
  | [] => None
  | d :: l' =>
      if bool_decide (after < _id d) then Some (d, Cursor after (S pos))
      else scan after (S pos) l'
  end.

(** The next matching document, if the collection has one; otherwise the
    tailable cursor waits. *)
Definition cursor_next (c : cursor) (l : list doc) : option (doc * cursor) :=
  scan (c_after c) (c_pos c) (drop (c_pos c) l).

(** ** The EventEmitter *)

Definition is_user (l : listener) : bool :=
  match l with User _ => true | Queued _ _ => false end.

Definition user_ids (ls : list listener) : list nat :=
  omap (λ l, match l with User cb => Some cb | Queued _ _ => None end) ls.

Definition listeners (w : world) (name : string) : list listener :=
  default [] (registry w !! name).

Definition on (name : string) (l : listener) (w : world) : world :=
  set_registry (<[name := listeners w name ++ [l]]> (registry w)) w.

Definition removeAllListeners (name : option string) (w : world) : world :=
  match name with
  | None => set_registry ∅ w
  | Some e => set_registry (delete e (registry w)) w
  end.

(** [collection.insert({ event: event, args: args }, cb)] of [publish]. *)
Definition insert_req (ev : string) (a : list value) (w : world) : world :=
  request (CInsert ev a) (TInsert ev a) w.

(** Calling one listener.  A parked [publish] closure expects the
    collection; any other argument has no [insert] to call. *)
Definition invoke (p : payload) (w : world) (l : listener) : world :=
  match l, p with
  | Queued ev a, PColl => insert_req ev a w
  | _, _ => w
  end.

(** [emit]: the listeners registered under [name] at the time of the call
    are called in order; [once] listeners are removed as they are called. *)
Definition emit (name : string) (p : payload) (w : world) : world :=
  let ls := listeners w name in
  let w1 := observe (OEmit name p (user_ids ls)) w in
  let w2 := set_registry (alter (filter (λ l, is_user l)) name (registry w1)) w1 in
  foldl (invoke p) w2 ls.

(** ** Channel.prototype *)

Definition close (w : world) : world := set_closed true w.

Definition publish (ev : string) (a : list value) (w : world) : world :=
  let args := VStr ev :: a in
  if listening w then insert_req ev args w
  else on "ready" (Queued ev args) w.

Definition subscribe (ev : option string) (cb : nat) (w : world) : world :=
  let name := default "message" ev in
  emit "subscribe" (PEvent (Some name)) (on name (User cb) w).

Definition unsubscribe (ev : option string) (w : world) : world :=
  emit "unsubscribe" (PEvent ev) (removeAllListeners ev w).

(** [create().listen(latest)]: a new promise for the collection, and
    [latest] waiting on it. *)
Definition create_listen (prev : option doc) (w : world) : world :=
  request CCreateCollection (TThen prev) w.

(** The function returned by [handle(exit, callback)], applied to [err] and
    to the remaining arguments captured in [k]. *)
Definition handle (exit : bool) (k : world → world) (err : option string)
    (w : world) : world :=
  if closed w || destroyed w then w
  else
    let w1 := match err with
              | Some e => emit "error" (PErr e) w
              | None => w
              end in
    if bool_decide (is_Some err) && exit then w1 else k w1.

(** [doc.event && doc.event === doc.args[0]] *)
Definition data_ok (d : doc) : bool :=
  match event d, args d with
  | Some e, VStr e' :: _ => bool_decide (e ≠ "") && bool_decide (e = e')
  | _, _ => false
  end.

(** [self.emit.apply(self, doc.args)] once [args[0]] is known to be a
    string: the first element names the event, the rest is passed on. *)
Definition emit_apply (a : list value) (w : world) : world :=
  match a with
  | VStr name :: rest => emit name (PArgs rest) w
  | _ => w
  end.

(** [doc.args[0] = 'message'] *)
Definition set_args0 (v : value) (d : doc) : doc :=
  Doc (_id d) (event d) (<[0 := v]> (args d)) (dummy d).

Definition broken_cursor : string := "Mubsub: broken cursor.".

(** The body of the [setTimeout] callback. *)
Definition on_timeout (latest : doc) (w : world) : world :=
  let w1 := emit "error" (PErr broken_cursor) w in
  if recreates w1 then create_listen (Some latest) w1 else w1.

(** [more]: [cursor.nextObject(next)] *)
Definition more (cur : cursor) (latest : doc) (w : world) : world :=
  request CNextObject (TNextObject cur latest) w.

(** The callback wrapped into [next]. The document is mutated in place, so
    [latest] and the ['document'] event see the rewritten [args]. *)
Definition on_next (cur : cursor) (latest : doc) (d : option doc)
    (w : world) : world :=
  match d with
  | None => request (CSetTimeout 1000) (TTimeout latest) w
  | Some d =>
      let '(d', w1) :=
        if data_ok d then
          let w1 := emit_apply (args d) w in
          let d' := set_args0 (VStr "message") d in
          (d', emit_apply (args d') w1)
        else (d, w) in
      request CNextTick (TNextTick cur d') (emit "document" (PDoc d') w1)
  end.

(** The callback of [listen], run with the document [latest] resolved. *)
Definition on_latest (latest : doc) (w : world) : world :=
  let cur := Cursor (_id latest) 0 in
  let w1 := observe (OCall (COpenCursor (_id latest) (retry w))) w in
  let w2 := more cur latest w1 in
  emit "ready" PColl (set_listening true w2).

(** The constructor: [this.create().listen()]. *)
Definition Channel (o : options) (store : list doc) : world :=
  create_listen None
    (World (norm_retry o) (norm_recreate o) false false ∅ false store [] []).

(** ** Actions *)

Inductive outcome :=
| Done
| Failed (err : string)
| Silent.

Inductive action :=
| Publish (ev : string) (a : list value)
| Subscribe (ev : option string) (cb : nat)
| Unsubscribe (ev : option string)
| Close
| Destroy
| Foreign (ev : option string) (a : list value)
| Fire (i : nat) (o : outcome).

(** Completion of the pending task [t] (already taken out of [pending]). *)
Definition complete (t : task) (o : outcome) (w : world) : option world :=
  match t, o with
  | TThen prev, Done =>
      Some (request (CFind (_id <$> prev)) (TFind prev) w)
  | TThen prev, Failed e =>
      Some (handle true id (Some e) w)
  | TFind prev, Done =>
      match store_find prev (log w) with
      | Some d => Some (handle true (on_latest d) None w)
      | None => Some (request CInsertDummy TDummy w)
      end
  | TFind prev, Failed e =>
      Some (handle true id (Some e) w)
  | TDummy, Done =>
      let d := Doc (fresh_id (log w)) None [] true in
      Some (handle true (on_latest d) None
              (set_log (store_insert None [] true (log w)) w))
  | TDummy, Failed e =>
      Some (handle true id (Some e) w)
  | TNextObject cur latest, Done =>
      match cursor_next cur (log w) with
      | Some (d, cur') => Some (handle false (on_next cur' latest (Some d)) None w)
      | None => None
      end
  | TNextObject cur latest, Silent =>
      Some (handle false (on_next cur latest None) None w)
  | TNextObject cur latest, Failed e =>
      Some (handle false (on_next cur latest None) (Some e) w)
  | TNextTick cur latest, Done =>
      Some (more cur latest w)
  | TTimeout latest, Done =>
      Some (on_timeout latest w)
  | TInsert ev a, Done =>
      Some (set_log (store_insert (Some ev) a false (log w)) w)
  | TInsert ev a, Failed e =>
      Some (emit "error" (PErr e) w)
  | _, _ => None
  end.

(** An action that does not apply (no such task, an outcome the task cannot
    have, a cursor with nothing to return yet) leaves the world as it is. *)
Definition fire (i : nat) (o : outcome) (w : world) : world :=
  match pending w !! i with
  | None => w
  | Some t => default w (complete t o (set_pending (delete i (pending w)) w))
  end.

Definition step (w : world) (a : action) : world :=
  match a with
  | Publish ev a => publish ev a w
  | Subscribe ev cb => subscribe ev cb w
  | Unsubscribe ev => unsubscribe ev w
  | Close => close w
  | Destroy => set_destroyed true w
  | Foreign ev a => set_log (store_insert ev a false (log w)) w
  | Fire i o => fire i o w
  end.

Definition run (w : world) (acts : list action) : world := foldl step w acts.

(** ** Reading the trace *)

(** The documents handed to ['document'] observers, in order. *)
Definition delivered (tr : list obs) : list doc :=
  omap (λ o, match o with OEmit _ (PDoc d) _ => Some d | _ => None end) tr.

(** The data events, made by [emit.apply(self, doc.args)]: the name, the
    arguments handed over and the callbacks invoked. *)
Definition data_obs (tr : list obs) : list (string * list value * list nat) :=
  omap (λ o, match o with
             | OEmit n (PArgs vs) cbs => Some (n, vs, cbs)
             | _ => None
             end) tr.

(** The messages of the ['error'] events. *)
Definition errors (tr : list obs) : list string :=
  omap (λ o, match o with OEmit _ (PErr e) _ => Some e | _ => None end) tr.

(** The [_id]s after which cursors were opened; the first is where the
    channel started to listen. *)
Definition opened (tr : list obs) : list nat :=
  omap (λ o, match o with OCall (COpenCursor a _) => Some a | _ => None end) tr.

Definition start (tr : list obs) : option nat := head (opened tr).

(** The calls to the outside, in order. *)
Definition calls (tr : list obs) : list call :=
  omap (λ o, match o with OCall c => Some c | _ => None end) tr.

(** The insertions of a sentinel requested by [latest]. *)
Definition sentinels (tr : list obs) : list obs :=
  omap (λ o, match o with OCall CInsertDummy => Some o | _ => None end) tr.

(** The pulls requested from a cursor. *)
Definition pulls (tr : list obs) : list obs :=
  omap (λ o, match o with OCall CNextObject => Some o | _ => None end) tr.

(** The [collection.insert] calls of [publish], in order. *)
Definition inserts (tr : list obs) : list (string * list value) :=
  omap (λ o, match o with OCall (CInsert ev a) => Some (ev, a) | _ => None end) tr.

(** Every emission that carries a record to user callbacks: the data events
    and ['document']. *)
Definition record_obs (tr : list obs) : list obs :=
  omap (λ o, match o with
             | OEmit _ (PArgs _) _ | OEmit _ (PDoc _) _ => Some o
             | _ => None
             end) tr.

(** Every invocation of a user callback, whatever the event. *)
Definition invocations (tr : list obs) : list nat :=
  concat (omap (λ o, match o with OEmit _ _ cbs => Some cbs | _ => None end) tr).

(** The callbacks of the tail protocol, as opposed to those of [publish]. *)
Definition is_tail (t : task) : bool :=
  match t with TInsert _ _ => false | _ => true end.

Definition tails (p : list task) : list task := filter (λ t, is_tail t) p.

(** ** Auxiliary readings of the registry and of a dispatch *)

Definition parked (p : payload) (ls : list listener) : list (string * list value) :=
  match p with
  | PColl => omap (λ l, match l with
                        | Queued ev a => Some (ev, a)
                        | User _ => None
                        end) ls
  | _ => []
  end.

Definition insert_task (x : string * list value) : task := TInsert x.1 x.2.
Definition insert_call (x : string * list value) : obs := OCall (CInsert x.1 x.2).

(** The publishes parked under a name until the collection is ready. *)
Definition queued (w : world) (name : string) : list (string * list value) :=
  parked PColl (listeners w name).

(** The user callbacks registered under a name, in registration order. *)
Definition subscribers (w : world) (name : string) : list nat :=
  user_ids (listeners w name).

(** The record as ['document'] observers and [latest] see it. *)
Definition rewritten (d : doc) : doc :=
  if data_ok d then set_args0 (VStr "message") d else d.

(** The two data events of a record that passes the test of [next]. *)
Definition data_events (w : world) (d : doc) : list obs :=
  match event d with
  | Some e =>
      if data_ok d then
        [OEmit e (PArgs (tail (args d))) (subscribers w e);
         OEmit "message" (PArgs (tail (args d))) (subscribers w "message")]
      else []
  | None => []
  end.

Definition dispatch_obs (w : world) (d : doc) : list obs :=
  data_events w d ++ [OEmit "document" (PDoc (rewritten d)) (subscribers w "document")].

(** What a record is worth to the subscribers [U]: the name, the arguments
    and the callbacks of each of its data events. *)
Definition data_of (U : string → list nat) (d : doc)
    : list (string * list value * list nat) :=
  match event d with
  | Some e =>
      if data_ok d then
        [(e, tail (args d), U e); ("message", tail (args d), U "message")]
      else []
  | None => []
  end.

(** ** The tail protocol seen from the collection *)

Definition ids (l : list doc) : list nat := _id <$> l.

(** The documents whose [_id] lies in [(a, m]], in natural order. *)
Definition window (a m : nat) (l : list doc) : list doc :=
  filter (λ d, a < _id d ≤ m) l.

(** The documents after [a], in natural order. *)
Definition beyond (a : nat) (l : list doc) : list doc :=
  filter (λ d, a < _id d) l.

(** The [_id] of the last record delivered, or the starting point [a]. *)
Definition mark (a : nat) (tr : list obs) : nat :=
  default a (last (ids (delivered tr))).

(** A cursor that has returned everything up to [m] and nothing beyond. *)
Definition cursor_ok (m : nat) (l : list doc) (c : cursor) : Prop :=
  c_after c ≤ m ∧ c_pos c ≤ length l ∧
  Forall (λ d, _id d ≤ m) (take (c_pos c) l) ∧
  Forall (λ d, _id d ≤ m → _id d ≤ c_after c) (drop (c_pos c) l).

(** Tasks of a channel that has opened a cursor and delivered up to [m]. *)
Definition task_ok (m : nat) (l : list doc) (t : task) : Prop :=
  match t with
  | TNextObject c latest | TNextTick c latest =>
      _id latest = m ∧ cursor_ok m l c
  | TTimeout latest | TThen (Some latest) | TFind (Some latest) =>
      _id latest = m
  | TInsert _ _ => True
  | TThen None | TFind None | TDummy => False
  end.

(** Tasks of a channel that has not opened a cursor yet. *)
Definition task_early (t : task) : Prop :=
  match t with
  | TThen None | TFind None | TDummy => True
  | _ => False
  end.

Definition is_lookup (t : task) : bool :=
  match t with TThen _ | TFind _ => true | _ => false end.

(** The invariant of the tail protocol. *)
Definition tail_inv (w : world) : Prop :=
  StronglySorted lt (ids (log w)) ∧
  length (tails (pending w)) ≤ 1 ∧
  length (sentinels (trace w)) ≤ 1 ∧
  match start (trace w) with
  | None =>
      listening w = false ∧
      delivered (trace w) = [] ∧
      Forall task_early (pending w) ∧
      (Exists (λ t, is_lookup t) (pending w) →
       length (sentinels (trace w)) = 0) ∧
      (TDummy ∈ pending w → length (sentinels (trace w)) = 1)
  | Some a =>
      listening w = true ∧
      mark a (trace w) ∈ ids (log w) ∧
      a ≤ mark a (trace w) ∧
      ids (delivered (trace w)) = ids (window a (mark a (trace w)) (log w)) ∧
      Forall (task_ok (mark a (trace w)) (log w)) (pending w) ∧
      Forall (λ d, dummy d = true → _id d ≤ a) (log w) ∧
      Forall (λ a', a ≤ a') (opened (trace w))
  end.

(** How the event loop may change while the channel has no cursor yet, and
    once it has one. *)
Definition early_step (p p' : list task) : Prop :=
  Forall task_early p →
  Forall task_early p' ∧
  (Exists (λ t, is_lookup t) p' → Exists (λ t, is_lookup t) p) ∧
  (TDummy ∈ p' → TDummy ∈ p).

Definition late_step (p p' : list task) : Prop :=
  ∀ m l, Forall (task_ok m l) p → Forall (task_ok m l) p'.

(** The callback [t'] takes the place of [t] in the tail protocol. *)
Definition follows (t t' : task) : Prop :=
  is_tail t = true ∧
  (task_early t → task_early t' ∧ (is_lookup t' → is_lookup t) ∧ t' ≠ TDummy) ∧
  (∀ m l, task_ok m l t → task_ok m l t').

(** What the subscribers [U] have received while the subscriptions stood
    still: the data events of the records delivered, in natural order. *)
Definition data_inv (U : string → list nat) (w : world) : Prop :=
  (∀ n, subscribers w n = U n) ∧
  match start (trace w) with
  | None => data_obs (trace w) = []
  | Some a =>
      data_obs (trace w) =
      window a (mark a (trace w)) (log w) ≫= data_of U
  end.

(** A channel whose tail protocol is running and has met no failure. *)
Definition alive (w : world) : Prop :=
  closed w = false ∧ destroyed w = false ∧
  ∃ t, tails (pending w) = [t] ∧
       match t with
       | TTimeout _ | TThen (Some _) | TFind (Some _) | TInsert _ _ => False
       | _ => True
       end.

(** The callbacks that report to a function built by [handle]: those of
    [latest] (collection promise, lookup, sentinel insert) and [next]. *)
Definition wrapped (t : task) : bool :=
  match t with
  | TThen _ | TFind _ | TDummy | TNextObject _ _ => true
  | _ => false
  end.

(** ** Classes of actions *)

Definition is_subscribe (a : action) : bool :=
  match a with Subscribe _ _ => true | _ => false end.

Definition is_publish (a : action) : bool :=
  match a with Publish _ _ => true | _ => false end.

Definition is_foreign (a : action) : bool :=
  match a with Foreign _ _ => true | _ => false end.

(** The registry is left alone. *)
Definition keeps_registry (a : action) : bool :=
  match a with Subscribe _ _ | Unsubscribe _ => false | _ => true end.

(** No induced failure: nothing fails, no cursor dies, nobody closes or
    changes the subscriptions. *)
Definition quiet (a : action) : bool :=
  match a with
  | Publish _ _ | Foreign _ _ | Fire _ Done => true
  | _ => false
  end.

(** ** Running the tail loop *)

(** Let the pending callback of the tail protocol complete successfully. *)
Definition pump1 (w : world) : world :=
  match list_find (λ t, is_tail t) (pending w) with
  | Some (i, _) => fire i Done w
  | None => w
  end.

Definition pump (n : nat) (w : world) : world := Nat.iter n pump1 w.

Global Arguments emit : simpl never.
Global Arguments subscribers : simpl never.
Global Arguments listeners : simpl never.
Global Arguments parked : simpl never.
Global Arguments on : simpl never.
Global Arguments removeAllListeners : simpl never.
Global Arguments on_next : simpl never.
Global Arguments on_latest : simpl never.
Global Arguments queued : simpl never.

Create Rewrite HintDb world.

(** ** Further readings and classes, for the properties beyond the claims *)

Definition is_unsubscribe (a : action) : bool :=
  match a with Unsubscribe _ => true | _ => false end.

(** The records handed to [publish], in call order, as [publish] builds
    them: [{event, args: [event, ...args]}]. *)
Definition published (acts : list action) : list (string * list value) :=
  omap (λ a, match a with
             | Publish ev args => Some (ev, VStr ev :: args)
             | _ => None
             end) acts.

(** The [tailableRetryInterval] of the cursors opened. *)
Definition retries (tr : list obs) : list nat :=
  omap (λ o, match o with OCall (COpenCursor _ r) => Some r | _ => None end) tr.

(** The [createCollection] calls. *)
Definition creations (tr : list obs) : list obs :=
  omap (λ o, match o with OCall CCreateCollection => Some o | _ => None end) tr.

(** Callbacks of [latest], the only ones a channel that has never listened
    can have pending. *)
Definition is_resolving (t : task) : bool :=
  match t with TThen _ | TFind _ | TDummy => true | _ => false end.

(** A channel that is not listening has nothing but [latest] in flight. *)
Definition unstarted_inv (w : world) : Prop :=
  listening w = true ∨ Forall (λ t, is_resolving t) (pending w).
(** ** What [emit] does to the world *)

Lemma foldl_invoke p ls w :
  foldl (invoke p) w ls =
  set_trace (trace w ++ (insert_call <$> parked p ls))
    (set_pending (pending w ++ (insert_task <$> parked p ls)) w).
Proof.
  revert w. induction ls as [|l ls IH]; intros w.
  - destruct w, p; simpl; unfold set_trace, set_pending; simpl;
      by rewrite !app_nil_r.
  - simpl. rewrite IH. destruct l as [cb|ev a], p; simpl; try done.
    destruct w; unfold set_trace, set_pending, insert_req, request, schedule,
      observe, set_trace, set_pending; simpl.
    by rewrite <- !app_assoc.
Qed.

Lemma emit_eq name p w :
  emit name p w =
  World (retry w) (recreates w) (closed w) (listening w)
    (alter (filter (λ l, is_user l)) name (registry w)) (destroyed w) (log w)
    (pending w ++ (insert_task <$> parked p (listeners w name)))
    (trace w ++ OEmit name p (user_ids (listeners w name))
             :: (insert_call <$> parked p (listeners w name))).
Proof.
  unfold emit. rewrite foldl_invoke. destruct w; simpl.
  unfold set_trace, set_pending; simpl. by rewrite <- app_assoc.
Qed.

Lemma user_ids_filter ls : user_ids (filter (λ l, is_user l) ls) = user_ids ls.
Proof.
  induction ls as [|[cb|ev a] ls IH]; [done| |].
  - rewrite filter_cons_True by done. simpl. by rewrite <- IH.
  - rewrite filter_cons_False by (simpl; tauto). apply IH.
Qed.

Lemma parked_filter p ls : parked p (filter (λ l, is_user l) ls) = [].
Proof.
  destruct p; try done. simpl.
  induction ls as [|[cb|ev a] ls IH]; [done| |].
  - by rewrite filter_cons_True by done.
  - by rewrite filter_cons_False by (simpl; tauto).
Qed.

Lemma parked_args vs ls : parked (PArgs vs) ls = [].
Proof. done. Qed.
Lemma parked_doc d ls : parked (PDoc d) ls = [].
Proof. done. Qed.
Lemma parked_err e ls : parked (PErr e) ls = [].
Proof. done. Qed.
Lemma parked_event e ls : parked (PEvent e) ls = [].
Proof. done. Qed.

Section emit_fields.
Context (name : string) (p : payload) (w : world).

Lemma retry_emit : retry (emit name p w) = retry w.
Proof. by rewrite emit_eq. Qed.
Lemma recreates_emit : recreates (emit name p w) = recreates w.
Proof. by rewrite emit_eq. Qed.
Lemma closed_emit : closed (emit name p w) = closed w.
Proof. by rewrite emit_eq. Qed.
Lemma listening_emit : listening (emit name p w) = listening w.
Proof. by rewrite emit_eq. Qed.
Lemma destroyed_emit : destroyed (emit name p w) = destroyed w.
Proof. by rewrite emit_eq. Qed.
Lemma log_emit : log (emit name p w) = log w.
Proof. by rewrite emit_eq. Qed.
Lemma registry_emit :
  registry (emit name p w) = alter (filter (λ l, is_user l)) name (registry w).
Proof. by rewrite emit_eq. Qed.
Lemma pending_emit :
  pending (emit name p w) =
  pending w ++ (insert_task <$> parked p (listeners w name)).
Proof. by rewrite emit_eq. Qed.
Lemma trace_emit :
  trace (emit name p w) =
  trace w ++ OEmit name p (subscribers w name)
          :: (insert_call <$> parked p (listeners w name)).
Proof. by rewrite emit_eq. Qed.

Lemma listeners_emit n :
  listeners (emit name p w) n =
  if decide (n = name) then filter (λ l, is_user l) (listeners w n)
  else listeners w n.
Proof.
  unfold listeners. rewrite registry_emit, lookup_alter.
  destruct (decide (n = name)) as [->|Hne].
  - rewrite decide_True by done. by destruct (registry w !! name).
  - by rewrite decide_False by done.
Qed.

Lemma subscribers_emit n : subscribers (emit name p w) n = subscribers w n.
Proof.
  unfold subscribers. rewrite listeners_emit.
  destruct (decide (n = name)); [apply user_ids_filter|done].
Qed.
End emit_fields.

(** An emission whose payload is not the collection leaves the event loop
    alone and adds one observation. *)
Lemma pending_emit_plain name p w :
  p ≠ PColl → pending (emit name p w) = pending w.
Proof.
  intros Hp. rewrite pending_emit. destruct p; try done; simpl;
    by rewrite app_nil_r.
Qed.

Lemma trace_emit_plain name p w :
  p ≠ PColl →
  trace (emit name p w) = trace w ++ [OEmit name p (subscribers w name)].
Proof. intros Hp. rewrite trace_emit. by destruct p. Qed.

(** ** Dispatch of one record *)

Lemma data_ok_inv d :
  data_ok d = true →
  ∃ e rest, event d = Some e ∧ args d = VStr e :: rest ∧ e ≠ "".
Proof.
  unfold data_ok. destruct (event d) as [e|]; [|done].
  destruct (args d) as [|[| | |e'] rest]; try done.
  intros [H1 H2]%andb_prop. apply bool_decide_eq_true in H1, H2.
  subst. eauto.
Qed.

Lemma on_next_data cur latest d w e rest :
  event d = Some e → args d = VStr e :: rest → data_ok d = true →
  on_next cur latest (Some d) w =
  request CNextTick (TNextTick cur (set_args0 (VStr "message") d))
    (emit "document" (PDoc (set_args0 (VStr "message") d))
       (emit "message" (PArgs rest) (emit e (PArgs rest) w))).
Proof.
  intros He Ha Hok. unfold on_next. rewrite Hok. simpl. by rewrite Ha.
Qed.

Lemma on_next_none cur latest w :
  on_next cur latest None w = request (CSetTimeout 1000) (TTimeout latest) w.
Proof. done. Qed.

Lemma on_next_plain cur latest d w :
  data_ok d = false →
  on_next cur latest (Some d) w =
  request CNextTick (TNextTick cur d) (emit "document" (PDoc d) w).
Proof. intros Hok. unfold on_next. by rewrite Hok. Qed.

Lemma subscribers_request c t w n :
  subscribers (request c t w) n = subscribers w n.
Proof. done. Qed.

Section on_next_record.
Context (cur : cursor) (latest d : doc) (w : world).
Let w' := on_next cur latest (Some d) w.

Lemma trace_on_next :
  trace w' = trace w ++ dispatch_obs w d ++ [OCall CNextTick].
Proof.
  subst w'. unfold dispatch_obs, data_events, rewritten.
  destruct (data_ok d) eqn:Hok.
  - destruct (data_ok_inv d Hok) as (e & rest & He & Ha & _).
    rewrite (on_next_data _ _ _ _ e rest) by done. rewrite He, Ha. simpl.
    rewrite !trace_emit_plain, !subscribers_emit by done.
    by rewrite <- !app_assoc.
  - rewrite on_next_plain by done. simpl.
    rewrite trace_emit_plain by done.
    destruct (event d); by rewrite <- !app_assoc.
Qed.

Lemma pending_on_next :
  pending w' = pending w ++ [TNextTick cur (rewritten d)].
Proof.
  subst w'. unfold rewritten.
  destruct (data_ok d) eqn:Hok.
  - destruct (data_ok_inv d Hok) as (e & rest & He & Ha & _).
    rewrite (on_next_data _ _ _ _ e rest) by done. simpl.
    by rewrite !pending_emit_plain.
  - rewrite on_next_plain by done. simpl. by rewrite pending_emit_plain.
Qed.

Lemma on_next_frame :
  log w' = log w ∧ closed w' = closed w ∧ destroyed w' = destroyed w ∧
  listening w' = listening w ∧ recreates w' = recreates w ∧
  retry w' = retry w.
Proof.
  subst w'. destruct (data_ok d) eqn:Hok.
  - destruct (data_ok_inv d Hok) as (e & rest & He & Ha & _).
    rewrite (on_next_data _ _ _ _ e rest) by done. simpl.
    by rewrite !log_emit, !closed_emit, !destroyed_emit, !listening_emit,
      !recreates_emit, !retry_emit.
  - rewrite on_next_plain by done. simpl.
    by rewrite !log_emit, !closed_emit, !destroyed_emit, !listening_emit,
      !recreates_emit, !retry_emit.
Qed.

Lemma subscribers_on_next n : subscribers w' n = subscribers w n.
Proof.
  subst w'. destruct (data_ok d) eqn:Hok.
  - destruct (data_ok_inv d Hok) as (e & rest & He & Ha & _).
    rewrite (on_next_data _ _ _ _ e rest) by done.
    by rewrite subscribers_request, !subscribers_emit.
  - rewrite on_next_plain by done.
    by rewrite subscribers_request, subscribers_emit.
Qed.
End on_next_record.

(** ** Reading what parked publishes add to the trace *)

Lemma record_obs_insert_calls l : record_obs (insert_call <$> l) = [].
Proof. induction l; done. Qed.
Lemma delivered_insert_calls l : delivered (insert_call <$> l) = [].
Proof. induction l; done. Qed.
Lemma data_obs_insert_calls l : data_obs (insert_call <$> l) = [].
Proof. induction l; done. Qed.
Lemma errors_insert_calls l : errors (insert_call <$> l) = [].
Proof. induction l; done. Qed.
Lemma opened_insert_calls l : opened (insert_call <$> l) = [].
Proof. induction l; done. Qed.
Lemma invocations_insert_calls l : invocations (insert_call <$> l) = [].
Proof. induction l; done. Qed.
Lemma inserts_insert_calls l : inserts (insert_call <$> l) = l.
Proof.
  induction l as [|[ev a] l IH]; [done|].
  rewrite fmap_cons. change (inserts (insert_call (ev, a) :: (insert_call <$> l)))
    with ((ev, a) :: inserts (insert_call <$> l)). by rewrite IH.
Qed.

Lemma record_obs_app t1 t2 : record_obs (t1 ++ t2) = record_obs t1 ++ record_obs t2.
Proof. apply omap_app. Qed.
Lemma delivered_app t1 t2 : delivered (t1 ++ t2) = delivered t1 ++ delivered t2.
Proof. apply omap_app. Qed.
Lemma data_obs_app t1 t2 : data_obs (t1 ++ t2) = data_obs t1 ++ data_obs t2.
Proof. apply omap_app. Qed.
Lemma errors_app t1 t2 : errors (t1 ++ t2) = errors t1 ++ errors t2.
Proof. apply omap_app. Qed.
Lemma opened_app t1 t2 : opened (t1 ++ t2) = opened t1 ++ opened t2.
Proof. apply omap_app. Qed.
Lemma inserts_app t1 t2 : inserts (t1 ++ t2) = inserts t1 ++ inserts t2.
Proof. apply omap_app. Qed.
Lemma calls_app t1 t2 : calls (t1 ++ t2) = calls t1 ++ calls t2.
Proof. apply omap_app. Qed.
Lemma invocations_app t1 t2 :
  invocations (t1 ++ t2) = invocations t1 ++ invocations t2.
Proof. unfold invocations. by rewrite omap_app, concat_app. Qed.
Lemma sentinels_app t1 t2 : sentinels (t1 ++ t2) = sentinels t1 ++ sentinels t2.
Proof. apply omap_app. Qed.
Lemma pulls_app t1 t2 : pulls (t1 ++ t2) = pulls t1 ++ pulls t2.
Proof. apply omap_app. Qed.
Lemma sentinels_insert_calls l : sentinels (insert_call <$> l) = [].
Proof. induction l; done. Qed.
Lemma pulls_insert_calls l : pulls (insert_call <$> l) = [].
Proof. induction l; done. Qed.

Lemma fire_eq i o w t :
  pending w !! i = Some t →
  fire i o w = default w (complete t o (set_pending (delete i (pending w)) w)).
Proof. intros H. unfold fire. by rewrite H. Qed.

Lemma fire_none i o w : pending w !! i = None → fire i o w = w.
Proof. intros H. unfold fire. by rewrite H. Qed.

Lemma handle_closed exit k err w : closed w = true → handle exit k err w = w.
Proof. intros H. unfold handle. by rewrite H. Qed.

Lemma handle_destroyed exit k err w :
  destroyed w = true → handle exit k err w = w.
Proof. intros H. unfold handle. rewrite H. by destruct (closed w). Qed.

Lemma handle_open exit k err w :
  closed w = false → destroyed w = false →
  handle exit k err w =
  match err with
  | Some e => if exit then emit "error" (PErr e) w
              else k (emit "error" (PErr e) w)
  | None => k w
  end.
Proof.
  intros Hc Hd. unfold handle. rewrite Hc, Hd. simpl.
  destruct err, exit; simpl; try done.
Qed.


#[global] Hint Rewrite closed_emit destroyed_emit listening_emit log_emit
  recreates_emit retry_emit trace_emit pending_emit subscribers_emit : world.
#[global] Hint Rewrite record_obs_app delivered_app data_obs_app errors_app
  opened_app inserts_app calls_app invocations_app sentinels_app pulls_app : world.
#[global] Hint Rewrite record_obs_insert_calls delivered_insert_calls
  data_obs_insert_calls errors_insert_calls opened_insert_calls
  invocations_insert_calls inserts_insert_calls sentinels_insert_calls
  pulls_insert_calls : world.
#[global] Hint Rewrite parked_args parked_doc parked_err parked_event : world.
#[global] Hint Rewrite on_next_none : world.
#[global] Hint Rewrite @app_nil_r : world.

Ltac wsimpl := repeat (progress (simpl; autorewrite with world)).

Ltac split_complete :=
  repeat match goal with
  | |- context [store_find ?p ?l] =>
      destruct (store_find p l) eqn:?; simpl
  | |- context [cursor_next ?c ?l] =>
      destruct (cursor_next c l) as [[? ?]|] eqn:?; simpl
  end.

(** ** Once closed, the channel hands no record to anybody *)

Lemma step_closed w a :
  closed w = true →
  closed (step w a) = true ∧
  record_obs (trace (step w a)) = record_obs (trace w).
Proof.
  intros Hc. destruct a as [ev a|ev cb|ev| | |ev a|i o]; simpl.
  - unfold publish. destruct (listening w); by wsimpl.
  - unfold subscribe. by wsimpl.
  - unfold unsubscribe. destruct ev; by wsimpl.
  - done.
  - done.
  - done.
  - unfold fire. destruct (pending w !! i) as [t|] eqn:Hi; [|done].
    destruct t, o; simpl; split_complete; rewrite ?handle_closed by done;
      try done; unfold on_timeout; wsimpl; try done.
    destruct (recreates w); by wsimpl.
Qed.

Lemma run_closed w acts :
  closed w = true →
  closed (run w acts) = true ∧
  record_obs (trace (run w acts)) = record_obs (trace w).
Proof.
  revert w. induction acts as [|a acts IH]; intros w Hc; [done|].
  simpl. destruct (step_closed w a Hc) as [Hc' Hr].
  destruct (IH _ Hc') as [? ?]. split; [done|congruence].
Qed.

(** ** The store and the cursor *)

Lemma fresh_id_gt l d : d ∈ l → _id d < fresh_id l.
Proof.
  intros Hd. unfold fresh_id.
  assert (_id d ≤ max_list (_id <$> l)); [|lia].
  apply max_list_elem_of_le, list_elem_of_fmap. eauto.
Qed.

Lemma fresh_id_gt_ids l n : n ∈ ids l → n < fresh_id l.
Proof.
  intros (d & -> & Hd)%list_elem_of_fmap. by apply fresh_id_gt.
Qed.

Lemma sorted_store_insert ev a dm l :
  StronglySorted lt (ids l) →
  StronglySorted lt (ids (store_insert ev a dm l)).
Proof.
  intros Hs. unfold store_insert, ids. rewrite fmap_app. simpl.
  apply StronglySorted_app. split_and!.
  - intros x1 x2 H1 ->%list_elem_of_singleton. by apply fresh_id_gt_ids.
  - done.
  - repeat constructor.
Qed.

Lemma scan_Some a pos l d c :
  scan a pos l = Some (d, c) →
  ∃ l1 l2, l = l1 ++ d :: l2 ∧ Forall (λ x, _id x ≤ a) l1 ∧ a < _id d ∧
           c = Cursor a (pos + length l1 + 1).
Proof.
  revert pos. induction l as [|x l IH]; intros pos; simpl; [done|].
  case_bool_decide as Hx.
  - intros [= -> <-]. exists [], l. split_and!; [done|constructor|done|].
    simpl. f_equal. lia.
  - intros (l1 & l2 & -> & Hl1 & Hd & ->)%IH.
    exists (x :: l1), l2. split_and!; [done| |done|].
    + constructor; [lia|done].
    + simpl. f_equal. lia.
Qed.

Lemma scan_None a pos l :
  scan a pos l = None → Forall (λ x, _id x ≤ a) l.
Proof.
  revert pos. induction l as [|x l IH]; intros pos; simpl; [constructor|].
  case_bool_decide as Hx; [done|]. intros H%IH. constructor; [lia|done].
Qed.

Lemma window_app a m l1 l2 : window a m (l1 ++ l2) = window a m l1 ++ window a m l2.
Proof. apply filter_app. Qed.

Lemma window_above a m l : Forall (λ d, m < _id d) l → window a m l = [].
Proof.
  intros H. unfold window. induction H as [|x l Hx _ IH]; [done|].
  rewrite filter_cons_False by lia. done.
Qed.

Lemma window_raise a m m' l :
  m ≤ m' → Forall (λ d, _id d ≤ m) l → window a m' l = window a m l.
Proof.
  intros Hm H. unfold window. induction H as [|x l Hx _ IH]; [done|].
  rewrite !filter_cons. rewrite IH.
  destruct (decide (a < _id x ≤ m')), (decide (a < _id x ≤ m)); try done; lia.
Qed.

Lemma window_snoc_fresh a m l ev ar dm :
  m ∈ ids l → window a m (store_insert ev ar dm l) = window a m l.
Proof.
  intros Hm%fresh_id_gt_ids. unfold store_insert.
  rewrite window_app. unfold window at 2.
  rewrite filter_cons_False by (simpl; lia). by rewrite filter_nil, app_nil_r.
Qed.

Lemma beyond_window a m l :
  Forall (λ d, _id d ≤ m) l → beyond a l = window a m l.
Proof.
  intros H. unfold beyond, window. induction H as [|x l Hx _ IH]; [done|].
  rewrite !filter_cons, IH.
  destruct (decide (a < _id x)), (decide (a < _id x ≤ m)); try done; lia.
Qed.

(** One pull of a cursor that is up to date with [m]: the document returned
    is the first one beyond [m]. *)
Lemma cursor_next_Some a m l c d c' :
  StronglySorted lt (ids l) → a ≤ m → cursor_ok m l c →
  cursor_next c l = Some (d, c') →
  m < _id d ∧ d ∈ l ∧
  window a (_id d) l = window a m l ++ [d] ∧
  cursor_ok (_id d) l c'.
Proof.
  intros Hs Ham (Hafter & Hpos & Htake & Hdrop) Hnext.
  unfold cursor_next in Hnext.
  apply scan_Some in Hnext as (l1 & l2 & Hl & Hl1 & Hd & ->).
  assert (Hlog : l = (take (c_pos c) l ++ l1) ++ d :: l2).
  { rewrite <- app_assoc, <- Hl. by rewrite take_drop. }
  rewrite Hl in Hdrop. apply Forall_app in Hdrop as [_ Hdrop].
  apply Forall_cons in Hdrop as [Hdm Hl2].
  assert (Hmd : m < _id d) by lia.
  assert (HP : Forall (λ x, _id x ≤ m) (take (c_pos c) l ++ l1)).
  { apply Forall_app. split; [done|].
    eapply Forall_impl; [exact Hl1|]. simpl. lia. }
  assert (HS : Forall (λ x, _id d < _id x) l2).
  { rewrite Hlog in Hs. unfold ids in Hs. rewrite fmap_app, fmap_cons in Hs.
    apply StronglySorted_app in Hs as (_ & _ & Hs).
    apply StronglySorted_cons in Hs as [Hs _].
    rewrite Forall_fmap in Hs. exact Hs. }
  split_and!.
  - done.
  - rewrite Hlog. set_solver.
  - assert (H1 : window a m (d :: l2) = []).
    { apply window_above. constructor; [done|].
      eapply Forall_impl; [exact HS|]. simpl. lia. }
    assert (H2 : window a (_id d) (d :: l2) = [d]).
    { unfold window. rewrite filter_cons_True by lia.
      f_equal. apply window_above.
      eapply Forall_impl; [exact HS|]. simpl. lia. }
    revert HP Hlog. generalize (take (c_pos c) l ++ l1). intros P HP ->.
    rewrite !window_app, H1, H2, app_nil_r.
    rewrite (window_raise a m (_id d)); [done|lia|done].
  - assert (Hlen : length (take (c_pos c) l) = c_pos c).
    { rewrite length_take. lia. }
    assert (Hsplit : l = ((take (c_pos c) l ++ l1) ++ [d]) ++ l2).
    { rewrite Hlog at 1. by rewrite <- !app_assoc. }
    assert (Hl' : length ((take (c_pos c) l ++ l1) ++ [d]) = c_pos c + length l1 + 1).
    { rewrite !length_app, Hlen. simpl. lia. }
    unfold cursor_ok. simpl. split_and!.
    + lia.
    + rewrite Hsplit at 1. rewrite length_app, Hl'. lia.
    + rewrite Hsplit, <- Hl'. rewrite take_app_length.
      apply Forall_app. split.
      * eapply Forall_impl; [exact HP|]. simpl. lia.
      * repeat constructor.
    + rewrite Hsplit, <- Hl'. rewrite drop_app_length.
      eapply Forall_impl; [exact HS|]. simpl. lia.
Qed.

(** A cursor with nothing to return has delivered everything. *)
Lemma cursor_next_None a m l c :
  cursor_ok m l c → cursor_next c l = None → beyond a l = window a m l.
Proof.
  intros (Hafter & Hpos & Htake & Hdrop) Hnext.
  apply scan_None in Hnext. apply beyond_window.
  rewrite <- (take_drop (c_pos c) l). apply Forall_app. split; [done|].
  eapply Forall_impl; [exact Hnext|]. simpl. lia.
Qed.

Lemma cursor_ok_snoc m l c ev a dm :
  m ∈ ids l → cursor_ok m l c → cursor_ok m (store_insert ev a dm l) c.
Proof.
  intros Hm%fresh_id_gt_ids (Hafter & Hpos & Htake & Hdrop).
  unfold store_insert, cursor_ok. split_and!.
  - done.
  - rewrite length_app. lia.
  - by rewrite take_app_le.
  - rewrite drop_app_le by done. apply Forall_app. split; [done|].
    repeat constructor. simpl. lia.
Qed.

Lemma cursor_ok_fresh m l : cursor_ok m l (Cursor m 0).
Proof.
  unfold cursor_ok. simpl. split_and!; [done|lia|constructor|].
  rewrite drop_0. by apply Forall_true.
Qed.

(** ** The event loop *)

Lemma tails_app p q : tails (p ++ q) = tails p ++ tails q.
Proof. apply filter_app. Qed.

Lemma tails_inserts xs : tails (insert_task <$> xs) = [].
Proof.
  induction xs as [|x xs IH]; [done|]. rewrite fmap_cons. unfold tails.
  rewrite filter_cons_False by (simpl; tauto). apply IH.
Qed.

Lemma tails_delete_le p i : length (tails (delete i p)) ≤ length (tails p).
Proof.
  revert i. induction p as [|x p IH]; intros [|i]; simpl; try done.
  - unfold tails. rewrite filter_cons. destruct (decide _); simpl; lia.
  - unfold tails in *. rewrite !filter_cons. specialize (IH i).
    destruct (decide _); simpl; lia.
Qed.

Lemma tails_delete p i t :
  p !! i = Some t → is_tail t = true →
  S (length (tails (delete i p))) = length (tails p).
Proof.
  revert i. induction p as [|x p IH]; intros [|i] Hi Ht; simplify_eq/=.
  - unfold tails. rewrite filter_cons_True by (rewrite Ht; done). done.
  - unfold tails in *. rewrite !filter_cons.
    destruct (decide (is_tail x)); simpl; rewrite (IH i); done.
Qed.

Lemma early_all_tails p : Forall task_early p → tails p = p.
Proof.
  intros H. induction H as [|t p Ht _ IH]; [done|].
  unfold tails in *. rewrite filter_cons_True; [by rewrite IH|].
  by destruct t.
Qed.

Lemma early_step_refl p : early_step p p.
Proof. by intros ?. Qed.

Lemma late_step_refl p : late_step p p.
Proof. by intros ???. Qed.

Lemma early_step_delete p i : early_step p (delete i p).
Proof.
  intros H. split_and!.
  - by apply Forall_delete.
  - rewrite !Exists_exists. intros (t & Ht & ?). exists t. split; [|done].
    by eapply list_elem_of_delete_inv.
  - apply list_elem_of_delete_inv.
Qed.

Lemma late_step_delete p i : late_step p (delete i p).
Proof. intros m l H. by apply Forall_delete. Qed.

Lemma late_step_inserts p xs : late_step p (p ++ (insert_task <$> xs)).
Proof.
  intros m l H. apply Forall_app. split; [done|].
  apply Forall_fmap, Forall_true. done.
Qed.

Lemma early_step_swap p i t t' :
  p !! i = Some t → follows t t' → early_step p (delete i p ++ [t']).
Proof.
  intros Hi (Htail & Hearly & _) H.
  assert (Ht : task_early t) by (eapply Forall_lookup_1; done).
  destruct (Hearly Ht) as (He' & Hl & Hd).
  destruct (early_step_delete p i H) as (H1 & H2 & H3). split_and!.
  - apply Forall_app. split; [done|]. by repeat constructor.
  - rewrite Exists_app. intros [?|Ht']; [by auto|].
    apply Exists_cons in Ht' as [Ht'|Ht']; [|by apply Exists_nil in Ht'].
    apply Exists_exists. exists t. split; [|by auto].
    by eapply list_elem_of_lookup_2.
  - rewrite elem_of_app. intros [?|Ht']; [by auto|].
    apply list_elem_of_singleton in Ht'. done.
Qed.

Lemma late_step_swap p i t t' :
  p !! i = Some t → follows t t' → late_step p (delete i p ++ [t']).
Proof.
  intros Hi (_ & _ & Hok) m l H. apply Forall_app. split.
  - by apply late_step_delete.
  - repeat constructor. apply Hok. eapply Forall_lookup_1; done.
Qed.

Lemma tails_swap p i t t' :
  p !! i = Some t → is_tail t = true → length (tails p) ≤ 1 →
  length (tails (delete i p ++ [t'])) ≤ 1.
Proof.
  intros Hi Ht Hp. pose proof (tails_delete p i t Hi Ht).
  rewrite tails_app, length_app.
  assert (length (tails [t']) ≤ 1); [|lia].
  unfold tails. rewrite filter_cons. destruct (decide _); simpl; lia.
Qed.

Lemma start_app t1 t2 :
  start (t1 ++ t2) = match start t1 with Some a => Some a | None => start t2 end.
Proof.
  unfold start. rewrite opened_app. by destruct (opened t1).
Qed.

(** Steps that touch neither the collection nor the readings of the trace
    the invariant speaks about. *)
Lemma tail_inv_frame w w' :
  tail_inv w →
  log w' = log w → listening w' = listening w →
  opened (trace w') = opened (trace w) →
  delivered (trace w') = delivered (trace w) →
  sentinels (trace w') = sentinels (trace w) →
  length (tails (pending w')) ≤ 1 →
  (listening w = false → early_step (pending w) (pending w')) →
  late_step (pending w) (pending w') →
  tail_inv w'.
Proof.
  intros (Hs & Ht & Hc & H) Hlog Hlis Hop Hdel Hsen Ht' Hearly Hlate.
  unfold tail_inv, start, mark. rewrite Hlog, Hlis, Hop, Hdel, Hsen.
  split_and!; try done.
  unfold start, mark in H. destruct (head (opened (trace w))) as [a|].
  - destruct H as (? & ? & ? & ? & Hok & ? & ?). split_and!; try done.
    by apply Hlate.
  - destruct H as (Hl & ? & He & ? & ?).
    destruct (Hearly Hl He) as (? & ? & ?). split_and!; auto.
Qed.

Lemma task_ok_snoc m l t ev a dm :
  m ∈ ids l → task_ok m l t → task_ok m (store_insert ev a dm l) t.
Proof.
  intros Hm. destruct t as [[?|]|[?|]| | | | |]; simpl; try done.
  all: intros [? ?]; split; [done|]; by apply cursor_ok_snoc.
Qed.

Lemma tails_nil_ok m l p : tails p = [] → Forall (task_ok m l) p.
Proof.
  induction p as [|t p IH]; [constructor|]. unfold tails in *.
  rewrite filter_cons. destruct (decide _) as [Ht|Ht]; [done|].
  intros H. constructor; [|by apply IH].
  destruct t; simpl in *; try done; by destruct Ht.
Qed.

Lemma ids_store_insert ev a dm l :
  ids (store_insert ev a dm l) = ids l ++ [fresh_id l].
Proof. unfold ids, store_insert. by rewrite fmap_app. Qed.

(** Appending a document to the collection. *)
Lemma tail_inv_store w w' ev a dm :
  tail_inv w →
  log w' = store_insert ev a dm (log w) →
  (dm = true → start (trace w) = None) →
  trace w' = trace w → listening w' = listening w →
  length (tails (pending w')) ≤ 1 →
  early_step (pending w) (pending w') → late_step (pending w) (pending w') →
  tail_inv w'.
Proof.
  intros (Hs & Ht & Hc & H) Hlog Hdm Htr Hlis Ht' Hearly Hlate.
  unfold tail_inv. rewrite Hlog, Htr, Hlis.
  split_and!; [by apply sorted_store_insert|done|done|].
  destruct (start (trace w)) as [a0|].
  - destruct H as (? & Hm & ? & Hd & Hok & Hdum & ?). split_and!; try done.
    + rewrite ids_store_insert. apply elem_of_app. by left.
    + by rewrite window_snoc_fresh.
    + eapply Forall_impl; [by apply Hlate|].
      intros t. by apply task_ok_snoc.
    + unfold store_insert. apply Forall_app. split; [done|].
      repeat constructor. simpl. intros ->. by specialize (Hdm eq_refl).
  - destruct H as (Hl & ? & He & ? & ?).
    destruct (Hearly He) as (? & ? & ?). split_and!; auto.
Qed.

Lemma mark_app_delivered a tr obs d :
  delivered obs = [d] → mark a (tr ++ obs) = _id d.
Proof.
  intros H. unfold mark, ids. rewrite delivered_app, H, fmap_app. simpl.
  by rewrite last_snoc.
Qed.

Lemma mark_same a tr tr' : delivered tr' = delivered tr → mark a tr' = mark a tr.
Proof. intros H. unfold mark. by rewrite H. Qed.

Section on_latest_fields.
Context (d : doc) (w : world).
Let w' := on_latest d w.
Let q := parked PColl (listeners w "ready").

Lemma trace_on_latest :
  trace w' =
  trace w ++ [OCall (COpenCursor (_id d) (retry w)); OCall CNextObject;
              OEmit "ready" PColl (subscribers w "ready")]
          ++ (insert_call <$> q).
Proof.
  subst w' q. unfold on_latest, more. rewrite trace_emit. simpl.
  by rewrite <- !app_assoc.
Qed.

Lemma pending_on_latest :
  pending w' =
  pending w ++ TNextObject (Cursor (_id d) 0) d :: (insert_task <$> q).
Proof.
  subst w' q. unfold on_latest, more. rewrite pending_emit. simpl.
  by rewrite <- !app_assoc.
Qed.

Lemma on_latest_frame :
  log w' = log w ∧ closed w' = closed w ∧ destroyed w' = destroyed w ∧
  listening w' = true ∧ recreates w' = recreates w ∧ retry w' = retry w.
Proof. subst w'. unfold on_latest, more. by wsimpl. Qed.

Lemma subscribers_on_latest n : subscribers w' n = subscribers w n.
Proof. subst w'. unfold on_latest, more. by rewrite subscribers_emit. Qed.
End on_latest_fields.

(** The callback of [listen] once [latest] has been resolved. *)
Lemma on_latest_inv w d :
  StronglySorted lt (ids (log w)) →
  tails (pending w) = [] →
  length (sentinels (trace w)) ≤ 1 →
  d ∈ log w →
  match start (trace w) with
  | None =>
      delivered (trace w) = [] ∧ Forall (λ x, _id x ≤ _id d) (log w)
  | Some a =>
      mark a (trace w) = _id d ∧ a ≤ _id d ∧
      ids (delivered (trace w)) = ids (window a (_id d) (log w)) ∧
      Forall (λ x, dummy x = true → _id x ≤ a) (log w) ∧
      Forall (λ a', a ≤ a') (opened (trace w))
  end →
  tail_inv (on_latest d w).
Proof.
  intros Hs Ht Hc Hd H.
  assert (Hid : _id d ∈ ids (log w)).
  { apply list_elem_of_fmap. eauto. }
  destruct (on_latest_frame d w) as (Hlog & _ & _ & Hlis & _).
  unfold tail_inv. rewrite Hlog, Hlis, trace_on_latest, pending_on_latest.
  set (q := parked PColl (listeners w "ready")).
  set (new := [OCall (COpenCursor (_id d) (retry w)); OCall CNextObject;
               OEmit "ready" PColl (subscribers w "ready")]).
  assert (Hdel : delivered (trace w ++ new ++ (insert_call <$> q)) = delivered (trace w)).
  { by wsimpl. }
  assert (Hsen : sentinels (trace w ++ new ++ (insert_call <$> q)) = sentinels (trace w)).
  { by wsimpl. }
  assert (Hst : start (trace w ++ new ++ (insert_call <$> q)) =
                Some (default (_id d) (start (trace w)))).
  { rewrite !start_app. by destruct (start (trace w)). }
  assert (Hop : opened (trace w ++ new ++ (insert_call <$> q)) =
                opened (trace w) ++ [_id d]).
  { by wsimpl. }
  assert (Hok : Forall (task_ok (_id d) (log w))
    (pending w ++ TNextObject (Cursor (_id d) 0) d :: (insert_task <$> q))).
  { apply Forall_app. split; [by apply tails_nil_ok|].
    constructor; [split; [done|apply cursor_ok_fresh]|].
    apply Forall_fmap, Forall_true. done. }
  rewrite Hsen, Hst, Hdel, Hop.
  split; [done|]. split; [|split; [done|]].
  { rewrite tails_app, Ht. unfold tails. rewrite filter_cons_True by done.
    fold (tails (insert_task <$> q)). by rewrite tails_inserts. }
  rewrite (mark_same _ (trace w)) by done.
  destruct (start (trace w)) as [a|] eqn:Hst0; simpl.
  - destruct H as (Hm & Ha & Hdel' & Hdum & Hopen). rewrite Hm.
    split_and!; try done. apply Forall_app. split; [done|].
    by repeat constructor.
  - destruct H as (Hdel' & Hall).
    assert (Hnil : opened (trace w) = []).
    { unfold start in Hst0. by destruct (opened (trace w)). }
    rewrite Hnil.
    assert (Hmark : mark (_id d) (trace w) = _id d).
    { unfold mark. by rewrite Hdel'. }
    rewrite Hmark. split_and!; try done.
    + rewrite Hdel'. unfold window.
      clear. induction (log w) as [|x l IH]; [done|].
      rewrite filter_cons_False by lia. done.
    + eapply Forall_impl; [exact Hall|]. simpl. auto.
    + by repeat constructor.
Qed.

(** ** What a dispatch adds to the readings of the trace *)

Lemma id_rewritten d : _id (rewritten d) = _id d.
Proof. unfold rewritten. by destruct (data_ok d). Qed.

Section dispatch_readings.
Context (w : world) (d : doc).

Lemma delivered_dispatch : delivered (dispatch_obs w d) = [rewritten d].
Proof.
  unfold dispatch_obs, data_events.
  destruct (event d), (data_ok d); done.
Qed.

Lemma data_obs_dispatch :
  data_obs (dispatch_obs w d) = data_of (subscribers w) d.
Proof.
  unfold dispatch_obs, data_events, data_of.
  destruct (event d), (data_ok d); done.
Qed.

Lemma opened_dispatch : opened (dispatch_obs w d) = [].
Proof.
  unfold dispatch_obs, data_events.
  destruct (event d), (data_ok d); done.
Qed.

Lemma sentinels_dispatch : sentinels (dispatch_obs w d) = [].
Proof.
  unfold dispatch_obs, data_events.
  destruct (event d), (data_ok d); done.
Qed.

Lemma pulls_dispatch : pulls (dispatch_obs w d) = [].
Proof.
  unfold dispatch_obs, data_events.
  destruct (event d), (data_ok d); done.
Qed.

Lemma errors_dispatch : errors (dispatch_obs w d) = [].
Proof.
  unfold dispatch_obs, data_events.
  destruct (event d), (data_ok d); done.
Qed.

Lemma inserts_dispatch : inserts (dispatch_obs w d) = [].
Proof.
  unfold dispatch_obs, data_events.
  destruct (event d), (data_ok d); done.
Qed.

Lemma record_obs_dispatch : record_obs (dispatch_obs w d) = dispatch_obs w d.
Proof.
  unfold dispatch_obs, data_events.
  destruct (event d), (data_ok d); done.
Qed.
End dispatch_readings.

#[global] Hint Rewrite delivered_dispatch data_obs_dispatch opened_dispatch
  sentinels_dispatch pulls_dispatch errors_dispatch inserts_dispatch
  record_obs_dispatch : world.

(** Delivery of the next document of the cursor. *)
Lemma on_next_inv w c c' latest d a :
  StronglySorted lt (ids (log w)) →
  tails (pending w) = [] →
  length (sentinels (trace w)) ≤ 1 →
  start (trace w) = Some a →
  listening w = true →
  a ≤ mark a (trace w) →
  ids (delivered (trace w)) = ids (window a (mark a (trace w)) (log w)) →
  Forall (λ x, dummy x = true → _id x ≤ a) (log w) →
  Forall (λ a', a ≤ a') (opened (trace w)) →
  cursor_ok (mark a (trace w)) (log w) c →
  cursor_next c (log w) = Some (d, c') →
  tail_inv (on_next c' latest (Some d) w).
Proof.
  intros Hs Ht Hc Hst Hlis Ha Hdel Hdum Hop Hcur Hnext.
  destruct (cursor_next_Some a _ _ _ _ _ Hs Ha Hcur Hnext)
    as (Hmd & Hd & Hwin & Hcur').
  destruct (on_next_frame c' latest d w) as (Hlog & _ & _ & Hlis' & _).
  unfold tail_inv.
  rewrite Hlog, Hlis', trace_on_next, pending_on_next, Hlis.
  assert (Hmark : mark a (trace w ++ dispatch_obs w d ++ [OCall CNextTick]) = _id d).
  { rewrite <- (id_rewritten d). apply mark_app_delivered. by wsimpl. }
  assert (Hstart : start (trace w ++ dispatch_obs w d ++ [OCall CNextTick]) = Some a).
  { rewrite start_app. by rewrite Hst. }
  rewrite Hstart, Hmark.
  split; [done|]. split; [|split].
  - rewrite tails_app, Ht. simpl. done.
  - wsimpl. by rewrite Nat.add_0_r || done.
  - split_and!; try done.
    + apply list_elem_of_fmap. eauto.
    + lia.
    + wsimpl. rewrite Hwin. unfold ids in *. rewrite !fmap_app, Hdel. simpl.
      by rewrite id_rewritten.
    + apply Forall_app. split; [by apply tails_nil_ok|].
      repeat constructor; [apply id_rewritten|apply Hcur'..].
    + by wsimpl.
Qed.

Lemma sorted_last_max l d :
  StronglySorted lt (ids l) → last l = Some d → Forall (λ x, _id x ≤ _id d) l.
Proof.
  intros Hs (l' & ->)%last_Some. unfold ids in Hs. rewrite fmap_app in Hs.
  apply StronglySorted_app in Hs as (H & _ & _).
  apply Forall_app. split; [|by repeat constructor].
  apply Forall_forall. intros x Hx.
  assert (_id x < _id d); [|lia].
  apply H; [apply list_elem_of_fmap; eauto|]. simpl. by left.
Qed.

Lemma store_find_by_id p l :
  _id p ∈ ids l →
  ∃ d, store_find (Some p) l = Some d ∧ _id d = _id p ∧ d ∈ l.
Proof.
  intros (x & Hx & Hin)%list_elem_of_fmap. simpl.
  destruct (last (filter (λ d, _id d = _id p) l)) as [d|] eqn:Hl.
  - exists d. split; [done|].
    apply last_Some_elem_of, list_elem_of_filter in Hl. done.
  - apply last_None in Hl.
    assert (x ∈ filter (λ d, _id d = _id p) l) as Hx'.
    { apply list_elem_of_filter. done. }
    rewrite Hl in Hx'. by apply not_elem_of_nil in Hx'.
Qed.

Lemma store_find_elem prev l d : store_find prev l = Some d → d ∈ l.
Proof.
  destruct prev as [p|]; simpl; intros H%last_Some_elem_of; [|done].
  by apply list_elem_of_filter in H as [_ ?].
Qed.

Lemma follows_then_find prev : follows (TThen prev) (TFind prev).
Proof. by destruct prev. Qed.

Lemma follows_tick_next c l : follows (TNextTick c l) (TNextObject c l).
Proof. done. Qed.

Lemma follows_next_timeout c l : follows (TNextObject c l) (TTimeout l).
Proof. split_and!; [done|done|]. intros m ? [? _]. done. Qed.

Lemma follows_timeout_then l : follows (TTimeout l) (TThen (Some l)).
Proof. done. Qed.

Lemma early_singleton p i t :
  Forall task_early p → length (tails p) ≤ 1 → p !! i = Some t →
  delete i p = [].
Proof.
  intros He Ht Hi. rewrite (early_all_tails p He) in Ht.
  destruct p as [|x [|y p]]; simpl in *; try lia; [done|].
  destruct i; simplify_eq/=. done.
Qed.

Lemma tails_delete_nil p i t :
  p !! i = Some t → is_tail t = true → length (tails p) ≤ 1 →
  tails (delete i p) = [].
Proof.
  intros Hi Ht Hp. pose proof (tails_delete p i t Hi Ht).
  apply length_zero_iff_nil || apply nil_length_inv. lia.
Qed.

(** ** The invariant holds from the constructor on *)

Lemma tail_inv_Channel o store :
  StronglySorted lt (ids store) → tail_inv (Channel o store).
Proof.
  intros Hs. unfold tail_inv, Channel, create_listen. simpl.
  split_and!; try done; try lia.
  - repeat constructor.
  - intros Hd. apply list_elem_of_singleton in Hd. done.
Qed.

Ltac frame w :=
  apply (tail_inv_frame w); [done|by wsimpl..| | |].

Lemma tail_inv_drop w i :
  tail_inv w → tail_inv (set_pending (delete i (pending w)) w).
Proof.
  intros H. frame w; simpl.
  - destruct H as (_ & H & _). pose proof (tails_delete_le (pending w) i). lia.
  - intros _. apply early_step_delete.
  - apply late_step_delete.
Qed.

Lemma tail_inv_error w i e :
  tail_inv w →
  tail_inv (emit "error" (PErr e) (set_pending (delete i (pending w)) w)).
Proof.
  intros H. frame w; wsimpl.
  - destruct H as (_ & H & _). pose proof (tails_delete_le (pending w) i). lia.
  - intros _. apply early_step_delete.
  - apply late_step_delete.
Qed.

Lemma tail_inv_handle_exit w i e k :
  tail_inv w →
  tail_inv (handle true k (Some e) (set_pending (delete i (pending w)) w)).
Proof.
  intros H. unfold handle. simpl.
  destruct (closed w || destroyed w); [by apply tail_inv_drop|].
  by apply tail_inv_error.
Qed.

Lemma tail_inv_swap w w' i t t' :
  tail_inv w →
  pending w !! i = Some t → follows t t' →
  pending w' = delete i (pending w) ++ [t'] →
  log w' = log w → listening w' = listening w →
  opened (trace w') = opened (trace w) →
  delivered (trace w') = delivered (trace w) →
  sentinels (trace w') = sentinels (trace w) →
  tail_inv w'.
Proof.
  intros H Hi Hf Hp ?????. apply (tail_inv_frame w); try done; rewrite Hp.
  - destruct H as (_ & H & _). eapply tails_swap; [done|apply Hf|done].
  - intros _. by eapply early_step_swap.
  - by eapply late_step_swap.
Qed.

Lemma tail_inv_fire w i o : tail_inv w → tail_inv (fire i o w).
Proof.
  intros H. unfold fire.
  destruct (pending w !! i) as [t|] eqn:Hi; [|done].
  pose proof H as (Hs & Ht & Hc & Hm).
  destruct t as [prev|prev| |c latest|c latest|latest|ev a], o; simpl; try done.
  - (* TThen, Done *)
    eapply (tail_inv_swap w); [done|done|apply follows_then_find|..]; by wsimpl.
  - by apply tail_inv_handle_exit.
  - (* TFind, Done *)
    destruct (store_find prev (log w)) as [d|] eqn:Hfind; simpl.
    + unfold handle. simpl.
      destruct (closed w || destroyed w); [by apply tail_inv_drop|].
      simpl. apply on_latest_inv; simpl; try done.
      * by eapply tails_delete_nil.
      * by eapply store_find_elem.
      * destruct (start (trace w)) as [a|].
        -- destruct Hm as (Hl & Hin & Ha & Hdel & Hok & Hdum & Hopd).
           pose proof (Forall_lookup_1 _ _ _ _ Hok Hi) as Hprev.
           destruct prev as [p|]; [|done]. simpl in Hprev.
           rewrite <- Hprev in Hin.
           destruct (store_find_by_id p (log w) Hin) as (d' & Hd' & Hid & _).
           rewrite Hfind in Hd'. injection Hd' as <-.
           rewrite Hid, Hprev. split_and!; try done.
        -- destruct Hm as (Hl & Hdel & He & _).
           pose proof (Forall_lookup_1 _ _ _ _ He Hi) as Hprev.
           destruct prev as [p|]; [done|]. simpl in Hfind.
           split; [done|]. by apply sorted_last_max.
    + destruct (start (trace w)) as [a|] eqn:Hst.
      * destruct Hm as (Hl & Hin & Ha & Hdel & Hok & Hdum & Hopd).
        pose proof (Forall_lookup_1 _ _ _ _ Hok Hi) as Hprev.
        destruct prev as [p|]; [|done]. simpl in Hprev.
        rewrite <- Hprev in Hin.
        destruct (store_find_by_id p (log w) Hin) as (d' & Hd' & _).
        congruence.
      * destruct Hm as (Hl & Hdel & He & Hlook & Hdum).
        assert (Hzero : length (sentinels (trace w)) = 0).
        { apply Hlook, Exists_exists. exists (TFind prev).
          split; [by eapply list_elem_of_lookup_2|done]. }
        unfold tail_inv. wsimpl. rewrite start_app, Hst. simpl.
        rewrite (early_singleton _ _ _ He Ht Hi). simpl.
        rewrite length_app, Hzero. simpl.
        split_and!; try done; try lia.
        -- repeat constructor.
        -- intros Hex. apply Exists_cons in Hex as [?|Hex]; [done|].
           by apply Exists_nil in Hex.
  - by apply tail_inv_handle_exit.
  - (* TDummy, Done *)
    destruct (start (trace w)) as [a|] eqn:Hst.
    { destruct Hm as (_ & _ & _ & _ & Hok & _).
      by pose proof (Forall_lookup_1 _ _ _ _ Hok Hi). }
    destruct Hm as (Hl & Hdel & He & Hlook & Hdum).
    unfold handle. simpl.
    destruct (closed w || destroyed w).
    + apply (tail_inv_store w _ None [] true); simpl; try done.
      * pose proof (tails_delete_le (pending w) i). lia.
      * apply early_step_delete.
      * apply late_step_delete.
    + simpl. apply on_latest_inv; simpl.
      * by apply sorted_store_insert.
      * by eapply tails_delete_nil.
      * done.
      * unfold store_insert. apply elem_of_app. right. by left.
      * rewrite Hst. split; [done|].
        unfold store_insert. apply Forall_app. split; [|by repeat constructor].
        apply Forall_forall. intros x Hx. simpl.
        pose proof (fresh_id_gt _ _ Hx). lia.
  - by apply tail_inv_handle_exit.
  - (* TNextObject, Done *)
    destruct (cursor_next c (log w)) as [[d c']|] eqn:Hnext; simpl; [|done].
    unfold handle. simpl.
    destruct (closed w || destroyed w); [by apply tail_inv_drop|].
    simpl. destruct (start (trace w)) as [a|] eqn:Hst.
    + destruct Hm as (Hl & Hin & Ha & Hdel & Hok & Hdum & Hopd).
      destruct (Forall_lookup_1 _ _ _ _ Hok Hi) as [_ Hcur].
      eapply (on_next_inv _ c c' latest d a); simpl; try done.
      by eapply tails_delete_nil.
    + destruct Hm as (_ & _ & He & _).
      by pose proof (Forall_lookup_1 _ _ _ _ He Hi).
  - (* TNextObject, Failed *)
    unfold handle. simpl.
    destruct (closed w || destroyed w); [by apply tail_inv_drop|].
    simpl.
    eapply (tail_inv_swap w); [done|done|apply follows_next_timeout|..];
      by wsimpl.
  - (* TNextObject, Silent *)
    unfold handle. simpl.
    destruct (closed w || destroyed w); [by apply tail_inv_drop|].
    simpl.
    eapply (tail_inv_swap w); [done|done|apply follows_next_timeout|..];
      by wsimpl.
  - (* TNextTick *)
    eapply (tail_inv_swap w); [done|done|apply follows_tick_next|..]; by wsimpl.
  - (* TTimeout *)
    unfold on_timeout. rewrite recreates_emit. simpl.
    destruct (recreates w).
    + eapply (tail_inv_swap w); [done|done|apply follows_timeout_then|..];
        by wsimpl.
    + by apply tail_inv_error.
  - (* TInsert, Done *)
    apply (tail_inv_store w _ (Some ev) a false); simpl; try done.
    + pose proof (tails_delete_le (pending w) i). lia.
    + apply early_step_delete.
    + apply late_step_delete.
  - by apply tail_inv_error.
Qed.

Lemma tail_inv_step w a : tail_inv w → tail_inv (step w a).
Proof.
  intros H.
  assert (Ht : length (tails (pending w)) ≤ 1) by (by destruct H as (_ & ? & _)).
  destruct a as [ev a|ev cb|ev| | |ev a|i o]; simpl.
  - unfold publish. destruct (listening w) eqn:Hl.
    + frame w; simpl.
      * rewrite tails_app. simpl.
        unfold tails at 2. rewrite filter_cons_False by (simpl; tauto).
        rewrite filter_nil, app_nil_r. done.
      * congruence.
      * apply (late_step_inserts _ [(ev, VStr ev :: a)]).
    + apply (tail_inv_frame w); [done|..]; wsimpl; try done;
        first [intros _; apply early_step_refl|apply late_step_refl].
  - unfold subscribe.
    apply (tail_inv_frame w); [done|..]; wsimpl; try done;
      first [intros _; apply early_step_refl|apply late_step_refl].
  - unfold unsubscribe.
    apply (tail_inv_frame w); [done|..]; destruct ev; wsimpl; try done;
      first [intros _; apply early_step_refl|apply late_step_refl].
  - apply (tail_inv_frame w); [done|..]; wsimpl; try done;
      first [intros _; apply early_step_refl|apply late_step_refl].
  - apply (tail_inv_frame w); [done|..]; wsimpl; try done;
      first [intros _; apply early_step_refl|apply late_step_refl].
  - apply (tail_inv_store w _ ev a false); simpl; try done;
      first [apply early_step_refl|apply late_step_refl].
  - by apply tail_inv_fire.
Qed.

Lemma tail_inv_run w acts : tail_inv w → tail_inv (run w acts).
Proof.
  revert w. induction acts as [|a acts IH]; intros w H; [done|].
  simpl. by apply IH, tail_inv_step.
Qed.

(** ** Field by field *)

Lemma log_on_next c l d w : log (on_next c l (Some d) w) = log w.
Proof. apply on_next_frame. Qed.
Lemma closed_on_next c l d w : closed (on_next c l (Some d) w) = closed w.
Proof. apply on_next_frame. Qed.
Lemma destroyed_on_next c l d w :
  destroyed (on_next c l (Some d) w) = destroyed w.
Proof. apply on_next_frame. Qed.
Lemma listening_on_next c l d w :
  listening (on_next c l (Some d) w) = listening w.
Proof. apply on_next_frame. Qed.
Lemma recreates_on_next c l d w :
  recreates (on_next c l (Some d) w) = recreates w.
Proof. apply on_next_frame. Qed.

Lemma log_on_latest d w : log (on_latest d w) = log w.
Proof. apply on_latest_frame. Qed.
Lemma closed_on_latest d w : closed (on_latest d w) = closed w.
Proof. apply on_latest_frame. Qed.
Lemma destroyed_on_latest d w : destroyed (on_latest d w) = destroyed w.
Proof. apply on_latest_frame. Qed.
Lemma listening_on_latest d w : listening (on_latest d w) = true.
Proof. apply on_latest_frame. Qed.
Lemma recreates_on_latest d w : recreates (on_latest d w) = recreates w.
Proof. apply on_latest_frame. Qed.

Section registry_readers.
Context (w : world) (n : string).

Lemma listeners_set_pending p : listeners (set_pending p w) n = listeners w n.
Proof. done. Qed.
Lemma listeners_set_log l : listeners (set_log l w) n = listeners w n.
Proof. done. Qed.
Lemma listeners_set_trace t : listeners (set_trace t w) n = listeners w n.
Proof. done. Qed.
Lemma listeners_set_closed b : listeners (set_closed b w) n = listeners w n.
Proof. done. Qed.
Lemma listeners_set_listening b :
  listeners (set_listening b w) n = listeners w n.
Proof. done. Qed.
Lemma listeners_set_destroyed b :
  listeners (set_destroyed b w) n = listeners w n.
Proof. done. Qed.
Lemma listeners_request c t : listeners (request c t w) n = listeners w n.
Proof. done. Qed.
Lemma listeners_observe o : listeners (observe o w) n = listeners w n.
Proof. done. Qed.
Lemma listeners_schedule t : listeners (schedule t w) n = listeners w n.
Proof. done. Qed.

Lemma subscribers_set_pending p :
  subscribers (set_pending p w) n = subscribers w n.
Proof. done. Qed.
Lemma subscribers_set_log l : subscribers (set_log l w) n = subscribers w n.
Proof. done. Qed.
Lemma subscribers_set_trace t :
  subscribers (set_trace t w) n = subscribers w n.
Proof. done. Qed.
Lemma subscribers_set_closed b :
  subscribers (set_closed b w) n = subscribers w n.
Proof. done. Qed.
Lemma subscribers_set_listening b :
  subscribers (set_listening b w) n = subscribers w n.
Proof. done. Qed.
Lemma subscribers_set_destroyed b :
  subscribers (set_destroyed b w) n = subscribers w n.
Proof. done. Qed.
Lemma subscribers_observe o : subscribers (observe o w) n = subscribers w n.
Proof. done. Qed.
Lemma subscribers_schedule t : subscribers (schedule t w) n = subscribers w n.
Proof. done. Qed.

Lemma listeners_on m l :
  listeners (on m l w) n =
  if decide (n = m) then listeners w n ++ [l] else listeners w n.
Proof.
  unfold listeners at 1, on. simpl. rewrite lookup_insert.
  destruct (decide (m = n)) as [->|]; simpl.
  - by rewrite decide_True.
  - by rewrite decide_False.
Qed.

Lemma listeners_removeAll e :
  listeners (removeAllListeners e w) n =
  match e with
  | None => []
  | Some m => if decide (n = m) then [] else listeners w n
  end.
Proof.
  unfold listeners at 1, removeAllListeners. destruct e as [m|]; simpl.
  - rewrite lookup_delete.
    destruct (decide (m = n)) as [->|]; simpl.
    + by rewrite decide_True.
    + by rewrite decide_False.
  - by rewrite lookup_empty.
Qed.
End registry_readers.

Lemma user_ids_app l1 l2 : user_ids (l1 ++ l2) = user_ids l1 ++ user_ids l2.
Proof. apply omap_app. Qed.

Lemma subscribers_on_queued w m ev a n :
  subscribers (on m (Queued ev a) w) n = subscribers w n.
Proof.
  unfold subscribers. rewrite listeners_on. destruct (decide _); [|done].
  rewrite user_ids_app. simpl. by rewrite app_nil_r.
Qed.

Lemma subscribers_on_user w m cb n :
  subscribers (on m (User cb) w) n =
  if decide (n = m) then subscribers w n ++ [cb] else subscribers w n.
Proof.
  unfold subscribers. rewrite listeners_on. destruct (decide _); [|done].
  by rewrite user_ids_app.
Qed.

Lemma subscribers_removeAll w e n :
  subscribers (removeAllListeners e w) n =
  match e with
  | None => []
  | Some m => if decide (n = m) then [] else subscribers w n
  end.
Proof.
  unfold subscribers. rewrite listeners_removeAll.
  destruct e as [m|]; [|done]. by destruct (decide _).
Qed.

#[global] Hint Rewrite log_on_next closed_on_next destroyed_on_next
  listening_on_next recreates_on_next trace_on_next pending_on_next
  subscribers_on_next : world.
#[global] Hint Rewrite log_on_latest closed_on_latest destroyed_on_latest
  listening_on_latest recreates_on_latest trace_on_latest pending_on_latest
  subscribers_on_latest : world.
#[global] Hint Rewrite listeners_set_pending listeners_set_log
  listeners_set_trace listeners_set_closed listeners_set_listening
  listeners_set_destroyed listeners_request listeners_observe
  listeners_schedule : world.
#[global] Hint Rewrite subscribers_set_pending subscribers_set_log
  subscribers_set_trace subscribers_set_closed subscribers_set_listening
  subscribers_set_destroyed subscribers_request subscribers_observe
  subscribers_schedule subscribers_on_queued : world.

(** The case analysis behind every statement about one [step]. *)
Ltac handle_cases w :=
  unfold handle; simpl;
  destruct (closed w || destroyed w) eqn:?; simpl.

Ltac fire_cases w i o :=
  unfold fire;
  let t := fresh "t" in
  destruct (pending w !! i) as [t|] eqn:?;
  [destruct t as [?prev|?prev| |?c ?latest|?c ?latest|?latest|?ev ?a], o;
   simpl; split_complete;
   try handle_cases w;
   try (unfold on_timeout; rewrite recreates_emit; simpl;
        destruct (recreates w) eqn:?; simpl);
   unfold create_listen, more
  |].

Ltac step_cases w a :=
  destruct a as [?ev ?a|?ev ?cb|[?ev|]| | |?ev ?a|?i ?o]; simpl;
  [ unfold publish; destruct (listening w) eqn:?; simpl
  | unfold subscribe
  | unfold unsubscribe
  | unfold unsubscribe
  | | | 
  | match goal with |- context [fire ?i ?o w] => fire_cases w i o end ].

(** A channel without a tail callback never pulls or delivers again. *)
Lemma tails_nil_lookup p i t : tails p = [] → p !! i = Some t → is_tail t = false.
Proof.
  intros Hp Hi. apply list_elem_of_lookup_2 in Hi.
  destruct (is_tail t) eqn:Ht; [|done].
  assert (t ∈ tails p) as Hin by (apply list_elem_of_filter; by rewrite Ht).
  rewrite Hp in Hin. by apply not_elem_of_nil in Hin.
Qed.

Lemma tails_delete_nil_nil p i : tails p = [] → tails (delete i p) = [].
Proof.
  intros Hp. pose proof (tails_delete_le p i) as H. rewrite Hp in H.
  simpl in H. destruct (tails (delete i p)); [done|simpl in H; lia].
Qed.

Lemma step_dead w a :
  tails (pending w) = [] →
  tails (pending (step w a)) = [] ∧
  record_obs (trace (step w a)) = record_obs (trace w) ∧
  pulls (trace (step w a)) = pulls (trace w).
Proof.
  intros Hp. step_cases w a; wsimpl;
    rewrite ?tails_app, ?Hp; simpl; try done;
    try match goal with
    | H : pending w !! _ = Some ?t |- _ =>
        by pose proof (tails_nil_lookup _ _ _ Hp H)
    end.
  all: by rewrite tails_delete_nil_nil.
Qed.

Lemma run_dead w acts :
  tails (pending w) = [] →
  tails (pending (run w acts)) = [] ∧
  record_obs (trace (run w acts)) = record_obs (trace w) ∧
  pulls (trace (run w acts)) = pulls (trace w).
Proof.
  revert w. induction acts as [|a acts IH]; intros w Hp; [done|].
  simpl. destruct (step_dead w a Hp) as (Hp' & Hr & Hq).
  destruct (IH _ Hp') as (? & ? & ?). split_and!; [done|congruence..].
Qed.

(** ** Subscriptions *)

Lemma subscribers_step w a n :
  keeps_registry a = true → subscribers (step w a) n = subscribers w n.
Proof. intros Ha. step_cases w a; wsimpl; done. Qed.

Lemma subscribers_run w acts n :
  forallb keeps_registry acts = true →
  subscribers (run w acts) n = subscribers w n.
Proof.
  revert w. induction acts as [|a acts IH]; intros w Ha; [done|].
  simpl in *. apply andb_prop in Ha as [Ha Hacts].
  by rewrite IH, subscribers_step.
Qed.

Lemma invocations_dispatch w d :
  invocations (dispatch_obs w d) =
  match event d with
  | Some e => if data_ok d then subscribers w e ++ subscribers w "message"
              else []
  | None => []
  end ++ subscribers w "document".
Proof.
  unfold dispatch_obs, data_events, invocations.
  destruct (event d), (data_ok d); simpl; by rewrite ?app_nil_r, <- ?app_assoc.
Qed.

Lemma invocations_emit n p cbs t :
  invocations (OEmit n p cbs :: t) = cbs ++ invocations t.
Proof. done. Qed.
Lemma invocations_call c t : invocations (OCall c :: t) = invocations t.
Proof. done. Qed.
Lemma invocations_nil : invocations [] = [].
Proof. done. Qed.

#[global] Hint Rewrite invocations_emit invocations_call invocations_nil
  invocations_dispatch subscribers_removeAll : world.

Section set_fields.
Context (w : world).
Lemma trace_on m l : trace (on m l w) = trace w. Proof. done. Qed.
Lemma pending_on m l : pending (on m l w) = pending w. Proof. done. Qed.
Lemma log_on m l : log (on m l w) = log w. Proof. done. Qed.
Lemma closed_on m l : closed (on m l w) = closed w. Proof. done. Qed.
Lemma destroyed_on m l : destroyed (on m l w) = destroyed w. Proof. done. Qed.
Lemma listening_on m l : listening (on m l w) = listening w. Proof. done. Qed.
Lemma recreates_on m l : recreates (on m l w) = recreates w. Proof. done. Qed.
Lemma trace_removeAll e : trace (removeAllListeners e w) = trace w.
Proof. by destruct e. Qed.
Lemma pending_removeAll e : pending (removeAllListeners e w) = pending w.
Proof. by destruct e. Qed.
Lemma log_removeAll e : log (removeAllListeners e w) = log w.
Proof. by destruct e. Qed.
Lemma closed_removeAll e : closed (removeAllListeners e w) = closed w.
Proof. by destruct e. Qed.
Lemma destroyed_removeAll e :
  destroyed (removeAllListeners e w) = destroyed w.
Proof. by destruct e. Qed.
Lemma listening_removeAll e :
  listening (removeAllListeners e w) = listening w.
Proof. by destruct e. Qed.
Lemma recreates_removeAll e :
  recreates (removeAllListeners e w) = recreates w.
Proof. by destruct e. Qed.
End set_fields.

#[global] Hint Rewrite trace_on pending_on log_on closed_on destroyed_on
  listening_on recreates_on trace_removeAll pending_removeAll log_removeAll
  closed_removeAll destroyed_removeAll listening_removeAll
  recreates_removeAll : world.

(** Without user callbacks nothing is invoked, and only [subscribe] brings
    one back. *)
Lemma step_nobody w a :
  (∀ n, subscribers w n = []) → is_subscribe a = false →
  (∀ n, subscribers (step w a) n = []) ∧
  invocations (trace (step w a)) = invocations (trace w).
Proof.
  intros Hno Ha. split.
  - intros n. destruct a as [ev a|ev cb|ev| | |ev a|i o]; try done;
      try (rewrite subscribers_step by done; apply Hno).
    simpl. unfold unsubscribe. rewrite subscribers_emit, subscribers_removeAll.
    destruct ev; [destruct (decide _)|]; auto.
  - step_cases w a; wsimpl; rewrite ?Hno; simpl; rewrite ?app_nil_r; try done.
    + case_decide; by rewrite app_nil_r.
    + destruct (event _); [destruct (data_ok _)|]; wsimpl; rewrite ?Hno;
        by rewrite ?app_nil_r.
Qed.

Lemma run_nobody w acts :
  (∀ n, subscribers w n = []) →
  existsb is_subscribe acts = false →
  invocations (trace (run w acts)) = invocations (trace w).
Proof.
  revert w.
  induction acts as [|a acts IH]; intros w Hno Ha; [done|].
  simpl in *. apply orb_false_elim in Ha as [Ha Hacts].
  destruct (step_nobody w a Hno Ha) as [Hno' Hinv].
  by rewrite IH.
Qed.

(** ** Parked publishes *)

Lemma parked_app p l1 l2 : parked p (l1 ++ l2) = parked p l1 ++ parked p l2.
Proof. unfold parked. destruct p; try done. apply omap_app. Qed.

Lemma parked_nil p : parked p [] = [].
Proof. by destruct p. Qed.

Lemma parked_emit name p w n :
  (∀ n, parked PColl (listeners w n) = []) →
  parked PColl (listeners (emit name p w) n) = [].
Proof.
  intros Hq. rewrite listeners_emit. case_decide; [apply parked_filter|done].
Qed.

Lemma parked_on_next c l d w n :
  (∀ n, parked PColl (listeners w n) = []) →
  parked PColl (listeners (on_next c l (Some d) w) n) = [].
Proof.
  intros Hq. destruct (data_ok d) eqn:Hok.
  - destruct (data_ok_inv d Hok) as (e & rest & He & Ha & _).
    rewrite (on_next_data _ _ _ _ e rest) by done. rewrite listeners_request.
    by do 3 (apply parked_emit; intros ?).
  - rewrite on_next_plain by done. rewrite listeners_request.
    by apply parked_emit.
Qed.

Lemma parked_on_latest d w n :
  (∀ n, parked PColl (listeners w n) = []) →
  parked PColl (listeners (on_latest d w) n) = [].
Proof.
  intros Hq. unfold on_latest, more. by apply parked_emit.
Qed.

(** Without a parked publish, only [publish] makes the channel insert. *)
Lemma step_unqueued w a :
  (∀ n, queued w n = []) → is_publish a = false →
  (∀ n, queued (step w a) n = []) ∧
  inserts (trace (step w a)) = inserts (trace w).
Proof.
  unfold queued. intros Hq Ha. split.
  - intros n. step_cases w a; try done; wsimpl;
      repeat first
        [ apply Hq
        | apply parked_emit; intros ?
        | apply parked_on_next; intros ?
        | apply parked_on_latest; intros ?
        | progress wsimpl ].
    + rewrite listeners_on. case_decide; [|done].
      by rewrite parked_app, Hq.
    + rewrite listeners_removeAll. by case_decide.
  - step_cases w a; wsimpl; rewrite ?Hq; wsimpl; try done.
Qed.

Lemma run_unqueued w acts :
  (∀ n, queued w n = []) → existsb is_publish acts = false →
  inserts (trace (run w acts)) = inserts (trace w).
Proof.
  revert w. induction acts as [|a acts IH]; intros w Hq Ha; [done|].
  simpl in *. apply orb_false_elim in Ha as [Ha Hacts].
  destruct (step_unqueued w a Hq Ha) as [Hq' Hins].
  by rewrite IH.
Qed.

(** ** At most one callback of the tail protocol *)

Lemma tails_singleton t : length (tails [t]) ≤ 1.
Proof. unfold tails. rewrite filter_cons. case_decide; simpl; lia. Qed.

Lemma step_tails w a :
  length (tails (pending w)) ≤ 1 → length (tails (pending (step w a))) ≤ 1.
Proof.
  intros Hp. step_cases w a; wsimpl; rewrite ?tails_app, ?tails_inserts;
    wsimpl; rewrite ?length_app; simpl; try done; try lia.
  all: rewrite ?tails_inserts; simpl.
  all: match goal with
    | H : pending ?w0 !! ?i = Some ?t |- _ =>
        pose proof (tails_delete_le (pending w0) i);
        try pose proof (tails_delete _ _ _ H eq_refl); try lia
    end.
Qed.

Lemma run_tails w acts :
  length (tails (pending w)) ≤ 1 → length (tails (pending (run w acts))) ≤ 1.
Proof.
  revert w. induction acts as [|a acts IH]; intros w H; [done|].
  simpl. by apply IH, step_tails.
Qed.

Lemma tails_Channel o store : length (tails (pending (Channel o store))) ≤ 1.
Proof. simpl. lia. Qed.

Lemma tails_only p i t :
  length (tails p) ≤ 1 → p !! i = Some t → is_tail t = true →
  tails p = [t] ∧ tails (delete i p) = [].
Proof.
  intros Hp Hi Ht. split; [|by eapply tails_delete_nil].
  assert (t ∈ tails p) as Hin.
  { apply list_elem_of_filter. split; [by rewrite Ht|].
    by eapply list_elem_of_lookup_2. }
  destruct (tails p) as [|x [|y q]]; simpl in *; try lia.
  - by apply not_elem_of_nil in Hin.
  - apply list_elem_of_singleton in Hin. by subst.
Qed.

(** ** Errors after [close] *)

Lemma errors_handle_closed w i o t :
  closed w = true → pending w !! i = Some t →
  match t with TInsert _ _ | TTimeout _ => False | _ => True end →
  errors (trace (fire i o w)) = errors (trace w).
Proof.
  intros Hc Hi Ht. rewrite (fire_eq _ _ _ _ Hi).
  destruct t, o; simpl; split_complete; rewrite ?handle_closed by done;
    wsimpl; done.
Qed.

Lemma errors_insert_failed w i ev a e :
  pending w !! i = Some (TInsert ev a) →
  errors (trace (fire i (Failed e) w)) = errors (trace w) ++ [e].
Proof.
  intros Hi. rewrite (fire_eq _ _ _ _ Hi). simpl. by wsimpl.
Qed.

(** ** One step, seen from the subscribers *)

Lemma window_empty a l : window a a l = [].
Proof.
  unfold window. induction l as [|x l IH]; [done|].
  by rewrite filter_cons_False by lia.
Qed.

(** A step either delivers nothing, or delivers the first document beyond
    the mark. *)
Lemma step_summary w a :
  tail_inv w →
  let w' := step w a in
  (data_obs (trace w') = data_obs (trace w) ∧
   delivered (trace w') = delivered (trace w) ∧
   (log w' = log w ∨ ∃ ev ar dm, log w' = store_insert ev ar dm (log w)) ∧
   (start (trace w) = None ∨ start (trace w') = start (trace w)))
  ∨
  (∃ s d, start (trace w) = Some s ∧ start (trace w') = Some s ∧
     log w' = log w ∧
     data_obs (trace w') = data_obs (trace w) ++ data_of (subscribers w) d ∧
     delivered (trace w') = delivered (trace w) ++ [rewritten d] ∧
     window s (_id d) (log w) = window s (mark s (trace w)) (log w) ++ [d]).
Proof.
  intros H. pose proof H as (Hs & Ht & Hc & Hm). simpl.
  step_cases w a; wsimpl; rewrite ?start_app; simpl.
  all: try (left; split_and!; try done; eauto;
            destruct (start (trace w)); by auto).
  right.
  match goal with
  | Hi : pending w !! _ = Some (TNextObject ?c _),
    Hn : cursor_next ?c _ = Some (?d, _) |- _ =>
      destruct (start (trace w)) as [s|] eqn:Hst;
      [destruct Hm as (Hl & Hin & Ha & Hdel & Hok & Hdum & Hopd);
       destruct (Forall_lookup_1 _ _ _ _ Hok Hi) as [_ Hcur];
       destruct (cursor_next_Some s _ _ _ _ _ Hs Ha Hcur Hn)
         as (Hmd & Hd & Hwin & Hcur');
       exists s, d; split_and!; try done; by rewrite start_app, Hst
      |destruct Hm as (_ & _ & He & _);
       by pose proof (Forall_lookup_1 _ _ _ _ He Hi)]
  end.
Qed.

Lemma data_of_ext U V d : (∀ n, U n = V n) → data_of U d = data_of V d.
Proof.
  intros H. unfold data_of. destruct (event d); [|done].
  destruct (data_ok d); [|done]. by rewrite !H.
Qed.

Lemma data_inv_step U w a :
  tail_inv w → data_inv U w → keeps_registry a = true →
  data_inv U (step w a).
Proof.
  intros Hinv [HU Hdata] Ha.
  pose proof (tail_inv_step w a Hinv) as Hinv'.
  split; [intros n; by rewrite subscribers_step|].
  destruct Hinv as (Hs & Ht & Hc & Hm).
  destruct Hinv' as (_ & _ & _ & Hm').
  destruct (step_summary w a) as
    [(Hd & Hdel & Hlog & Hst)|(s & d & Hst & Hst' & Hlog & Hd & Hdel & Hwin)];
    [done| |].
  - destruct (start (trace (step w a))) as [s'|] eqn:Hst'.
    2:{ rewrite Hd.
        destruct Hst as [Hst|Hst];
          [rewrite Hst in Hdata|rewrite <- Hst in Hdata]; done. }
    rewrite Hd, (mark_same s' (trace w)) by done.
    destruct (start (trace w)) as [s|] eqn:Hst0.
    + destruct Hst as [?|Hst]; [done|]. injection Hst as ->.
      rewrite Hdata. destruct Hm as (_ & Hin & _).
      destruct Hlog as [->|(ev & ar & dm & ->)]; [done|].
      by rewrite window_snoc_fresh.
    + rewrite Hdata. destruct Hm as (_ & Hnil & _).
      unfold mark. rewrite Hnil. simpl. by rewrite window_empty.
  - rewrite Hst', Hlog, Hd. rewrite Hst in Hdata. rewrite Hdata.
    assert (Hmark : mark s (trace (step w a)) = _id d).
    { unfold mark, ids. rewrite Hdel, fmap_app. simpl.
      by rewrite last_snoc, id_rewritten. }
    rewrite Hmark, Hwin, bind_app. simpl. rewrite app_nil_r.
    f_equal. by apply data_of_ext.
Qed.

Lemma data_inv_run U w acts :
  tail_inv w → data_inv U w → forallb keeps_registry acts = true →
  data_inv U (run w acts).
Proof.
  revert w. induction acts as [|a acts IH]; intros w Hinv Hd Ha; [done|].
  simpl in *. apply andb_prop in Ha as [Ha Hacts].
  apply IH; [by apply tail_inv_step|by apply data_inv_step|done].
Qed.

(** Subscribing writes no data event and starts no cursor. *)
Lemma data_inv_subscribe w ev cb U :
  data_inv U w → start (trace w) = None →
  data_inv (subscribers (step w (Subscribe ev cb))) (step w (Subscribe ev cb)) ∧
  start (trace (step w (Subscribe ev cb))) = None.
Proof.
  intros [_ Hd] Hst. rewrite Hst in Hd. simpl. unfold subscribe.
  unfold data_inv. wsimpl. rewrite start_app, Hst. simpl.
  split_and!; done.
Qed.

(** ** Running the tail loop: everything committed gets delivered *)

Lemma list_find_tails p t :
  tails p = [t] →
  ∃ i, list_find (λ t, is_tail t) p = Some (i, t) ∧ p !! i = Some t.
Proof.
  induction p as [|x p IH]; [done|]. unfold tails in *.
  rewrite filter_cons. simpl. destruct (decide (is_tail x)) as [Hx|Hx].
  - intros [= -> _]. by exists 0.
  - intros (i & Hf & Hi)%IH. exists (S i). by rewrite Hf.
Qed.

Lemma tails_delete_other p i t :
  p !! i = Some t → is_tail t = false → tails (delete i p) = tails p.
Proof.
  revert i. induction p as [|x p IH]; intros [|i] Hi Ht; simpl in *; try done.
  - injection Hi as ->. unfold tails. rewrite filter_cons_False; [done|].
    rewrite Ht. simpl. tauto.
  - unfold tails in *. rewrite !filter_cons.
    destruct (decide (is_tail x)); by rewrite (IH i).
Qed.

Lemma tails_cons_inserts t xs :
  is_tail t = true → tails (t :: (insert_task <$> xs)) = [t].
Proof.
  intros Ht. unfold tails. rewrite filter_cons_True by (by rewrite Ht).
  f_equal. apply tails_inserts.
Qed.

Lemma alive_open w : alive w → closed w || destroyed w = false.
Proof. intros (-> & -> & _). done. Qed.

Lemma alive_step w a : alive w → quiet a = true → alive (step w a).
Proof.
  intros Hal Ha. pose proof (alive_open w Hal) as Hopen.
  destruct Hal as (Hc & Hd & t & Ht & Hkind).
  assert (Hlen : length (tails (pending w)) ≤ 1) by (by rewrite Ht).
  unfold alive.
  step_cases w a; try done; wsimpl; try congruence;
    (split; [done|]); (split; [done|]);
    rewrite ?tails_app, ?tails_inserts; simpl; rewrite ?app_nil_r;
    try (by exists t).
  all: match goal with
    | H : pending ?w0 !! ?i = Some ?t0 |- _ =>
        first
          [ destruct (tails_only _ _ _ Hlen H eq_refl) as [Heq ->];
            rewrite Ht in Heq; injection Heq as ->; simpl; try done; eauto
          | rewrite (tails_delete_other _ _ _ H eq_refl); by exists t ]
    end.
  all: eexists; split;
    [first [by apply tails_cons_inserts
           |by apply (tails_cons_inserts _ [])]|done].
Qed.

Lemma pump1_step w : pump1 w = w ∨ ∃ i, pump1 w = step w (Fire i Done).
Proof.
  unfold pump1. destruct (list_find _ _) as [[i t]|]; [right|by left].
  by exists i.
Qed.

Lemma pump_S n w : pump (S n) w = pump1 (pump n w).
Proof. done. Qed.

Lemma pump_add n m w : pump (n + m) w = pump n (pump m w).
Proof. unfold pump. apply Nat.iter_add. Qed.

Section pump_keeps.
Context (U : string → list nat).

Lemma pump1_keeps w :
  tail_inv w ∧ alive w ∧ data_inv U w →
  tail_inv (pump1 w) ∧ alive (pump1 w) ∧ data_inv U (pump1 w).
Proof.
  intros (Hinv & Hal & Hd). destruct (pump1_step w) as [->|[i ->]]; [done|].
  split_and!.
  - by apply tail_inv_step.
  - by apply alive_step.
  - by apply data_inv_step.
Qed.

Lemma pump_keeps n w :
  tail_inv w ∧ alive w ∧ data_inv U w →
  tail_inv (pump n w) ∧ alive (pump n w) ∧ data_inv U (pump n w).
Proof.
  intros H. induction n as [|n IH]; [done|].
  rewrite pump_S. by apply pump1_keeps.
Qed.
End pump_keeps.

Lemma pump1_tail w t :
  tails (pending w) = [t] →
  ∃ i, pending w !! i = Some t ∧ pump1 w = fire i Done w ∧
       tails (delete i (pending w)) = [] .
Proof.
  intros Ht. destruct (list_find_tails _ _ Ht) as (i & Hf & Hi).
  exists i. unfold pump1. rewrite Hf. split_and!; [done..|].
  destruct t; try (eapply tails_delete_nil; [done|done|by rewrite Ht]).
  assert (TInsert ev a ∈ tails (pending w)) as Hin by (rewrite Ht; by left).
  apply list_elem_of_filter in Hin as [? _]. done.
Qed.

Lemma start_on_latest d w : is_Some (start (trace (on_latest d w))).
Proof.
  rewrite trace_on_latest, start_app. destruct (start (trace w)); eauto.
Qed.

Lemma alive_pump1 w : alive w → alive (pump1 w).
Proof.
  intros H. destruct (pump1_step w) as [->|[i ->]]; [done|].
  by apply alive_step.
Qed.

Lemma pump_starts_dummy w :
  alive w → tails (pending w) = [TDummy] →
  is_Some (start (trace (pump 1 w))).
Proof.
  intros Hal Ht. pose proof (alive_open w Hal) as Hopen.
  destruct (pump1_tail w _ Ht) as (i & Hi & Hp & _).
  simpl. rewrite Hp, (fire_eq _ _ _ _ Hi). simpl.
  unfold handle. simpl. rewrite Hopen. simpl. apply start_on_latest.
Qed.

Lemma pump_starts_find w :
  alive w → tails (pending w) = [TFind None] →
  ∃ n, is_Some (start (trace (pump n w))).
Proof.
  intros Hal Ht. pose proof (alive_open w Hal) as Hopen.
  destruct (pump1_tail w _ Ht) as (i & Hi & Hp & Hdel).
  destruct (store_find None (log w)) as [d|] eqn:Hfind.
  - exists 1. simpl in *. rewrite Hp, (fire_eq _ _ _ _ Hi). simpl.
    rewrite Hfind. simpl. unfold handle. simpl. rewrite Hopen. simpl.
    apply start_on_latest.
  - exists 2. change (pump 2 w) with (pump 1 (pump1 w)).
    apply pump_starts_dummy; [by apply alive_pump1|].
    rewrite Hp, (fire_eq _ _ _ _ Hi). simpl in *. rewrite Hfind. simpl.
    by rewrite tails_app, Hdel.
Qed.

Lemma pump_starts_then w :
  alive w → tails (pending w) = [TThen None] →
  ∃ n, is_Some (start (trace (pump n w))).
Proof.
  intros Hal Ht.
  destruct (pump1_tail w _ Ht) as (i & Hi & Hp & Hdel).
  destruct (pump_starts_find (pump1 w)) as [n Hn].
  - by apply alive_pump1.
  - rewrite Hp, (fire_eq _ _ _ _ Hi). simpl. by rewrite tails_app, Hdel.
  - exists (n + 1). by rewrite pump_add.
Qed.

Lemma pump_starts w :
  tail_inv w → alive w → ∃ n, is_Some (start (trace (pump n w))).
Proof.
  intros Hinv Hal. pose proof Hal as (_ & _ & t & Ht & Hkind).
  destruct (start (trace w)) as [s|] eqn:Hst.
  { exists 0. simpl. rewrite Hst. eauto. }
  destruct Hinv as (_ & _ & _ & Hm). rewrite Hst in Hm.
  destruct Hm as (_ & _ & He & _).
  assert (Hin : t ∈ pending w).
  { assert (t ∈ tails (pending w)) as Hin by (rewrite Ht; by left).
    by apply list_elem_of_filter in Hin as [_ ?]. }
  pose proof (proj1 (Forall_forall _ _) He t Hin) as Hearly.
  destruct t as [[?|]|[?|]| | | | |]; try done.
  - by apply pump_starts_then.
  - by apply pump_starts_find.
  - exists 1. by apply pump_starts_dummy.
Qed.

(** The documents still to be delivered. *)
Lemma remaining_shrinks m d l :
  d ∈ l → m < _id d →
  length (filter (λ x, _id d < _id x) l) < length (filter (λ x, m < _id x) l).
Proof.
  intros Hd Hm. induction l as [|x l IH]; [by apply not_elem_of_nil in Hd|].
  assert (Hle : length (filter (λ x, _id d < _id x) l)
                ≤ length (filter (λ x, m < _id x) l)).
  { clear -Hm. induction l as [|y l IH]; [done|]. rewrite !filter_cons.
    destruct (decide (_id d < _id y)), (decide (m < _id y)); simpl; lia. }
  rewrite !filter_cons. apply elem_of_cons in Hd as [<-|Hd].
  - rewrite decide_False by lia. rewrite decide_True by lia. simpl. lia.
  - specialize (IH Hd).
    destruct (decide (_id d < _id x)), (decide (m < _id x)); simpl; lia.
Qed.

Lemma pump_inv n w : tail_inv w → alive w → tail_inv (pump n w) ∧ alive (pump n w).
Proof.
  intros Hinv Hal. induction n as [|n [IH1 IH2]]; [done|].
  rewrite pump_S. destruct (pump1_step (pump n w)) as [->|[i ->]]; [done|].
  split; [by apply tail_inv_step|by apply alive_step].
Qed.

Lemma tails_task_ok w t s :
  tail_inv w → start (trace w) = Some s → tails (pending w) = [t] →
  task_ok (mark s (trace w)) (log w) t.
Proof.
  intros (_ & _ & _ & Hm) Hst Ht. rewrite Hst in Hm.
  destruct Hm as (_ & _ & _ & _ & Hok & _).
  assert (t ∈ tails (pending w)) as Hin by (rewrite Ht; by left).
  apply list_elem_of_filter in Hin as [_ Hin].
  by apply (proj1 (Forall_forall _ _) Hok).
Qed.

Lemma pump_drain_next k : ∀ w s c l,
  tail_inv w → alive w → start (trace w) = Some s →
  tails (pending w) = [TNextObject c l] →
  length (filter (λ x, mark s (trace w) < _id x) (log w)) ≤ k →
  ∃ n, log (pump n w) = log w ∧ start (trace (pump n w)) = Some s ∧
       window s (mark s (trace (pump n w))) (log (pump n w))
       = beyond s (log (pump n w)).
Proof.
  induction k as [|k IH]; intros w s c l Hinv Hal Hst Ht Hk.
  all: destruct (tails_task_ok w _ s Hinv Hst Ht) as [Hl Hcur].
  all: destruct (cursor_next c (log w)) as [[d c']|] eqn:Hnext;
    [|exists 0; simpl; split_and!; [done|done|];
      symmetry; by eapply cursor_next_None].
  all: pose proof Hinv as (Hs & _ & _ & Hm); rewrite Hst in Hm;
    destruct Hm as (_ & _ & Ha & _);
    destruct (cursor_next_Some s _ _ _ _ _ Hs Ha Hcur Hnext)
      as (Hmd & Hd & Hwin & Hcur').
  all: pose proof (remaining_shrinks _ _ _ Hd Hmd) as Hrem.
  { lia. }
  pose proof (alive_open w Hal) as Hopen.
  destruct (pump1_tail w _ Ht) as (i & Hi & Hp & Hdel).
  assert (Hw1 : pump1 w = on_next c' l (Some d)
                            (set_pending (delete i (pending w)) w)).
  { rewrite Hp, (fire_eq _ _ _ _ Hi). simpl. rewrite Hnext. simpl.
    unfold handle. simpl. by rewrite Hopen. }
  destruct (pump_inv 1 w Hinv Hal) as [Hinv1 Hal1]. simpl in Hinv1, Hal1.
  assert (Ht1 : tails (pending (pump1 w)) = [TNextTick c' (rewritten d)]).
  { rewrite Hw1, pending_on_next. simpl. by rewrite tails_app, Hdel. }
  assert (Hlog1 : log (pump1 w) = log w) by (by rewrite Hw1, log_on_next).
  assert (Htr1 : trace (pump1 w) = trace w ++ dispatch_obs w d ++ [OCall CNextTick]).
  { rewrite Hw1, trace_on_next. simpl. done. }
  pose proof (alive_open _ Hal1) as Hopen1.
  destruct (pump1_tail _ _ Ht1) as (j & Hj & Hp1 & Hdel1).
  assert (Hw2 : pump1 (pump1 w) =
                more c' (rewritten d)
                  (set_pending (delete j (pending (pump1 w))) (pump1 w))).
  { by rewrite Hp1, (fire_eq _ _ _ _ Hj). }
  destruct (pump_inv 2 w Hinv Hal) as [Hinv2 Hal2]. simpl in Hinv2, Hal2.
  assert (Hmark2 : mark s (trace (pump1 (pump1 w))) = _id d).
  { rewrite Hw2. unfold more. simpl. rewrite Htr1.
    rewrite <- (id_rewritten d). unfold mark, ids. wsimpl.
    rewrite !fmap_app. simpl. by rewrite last_snoc. }
  destruct (IH (pump1 (pump1 w)) s c' (rewritten d)) as (n & Hn1 & Hn2 & Hn3).
  - done.
  - done.
  - rewrite Hw2. unfold more. simpl. rewrite Htr1, !start_app, Hst. done.
  - rewrite Hw2. unfold more. simpl. by rewrite tails_app, Hdel1.
  - rewrite Hmark2. rewrite Hw2. unfold more. simpl. rewrite Hlog1. lia.
  - exists (n + 2). rewrite pump_add. change (pump 2 w) with (pump1 (pump1 w)).
    split_and!; try done. rewrite Hn1, Hw2. unfold more. simpl. done.
Qed.

Lemma pump_drain w s :
  tail_inv w → alive w → start (trace w) = Some s →
  ∃ n, start (trace (pump n w)) = Some s ∧
       window s (mark s (trace (pump n w))) (log (pump n w))
       = beyond s (log (pump n w)).
Proof.
  intros Hinv Hal Hst. pose proof Hal as (_ & _ & t & Ht & Hkind).
  pose proof (tails_task_ok w t s Hinv Hst Ht) as Hok.
  destruct t as [[?|]|[?|]| |c l|c l| |]; try done.
  - destruct (pump_drain_next _ w s c l Hinv Hal Hst Ht (Nat.le_refl _))
      as (n & _ & ? & ?); eauto.
  - destruct (pump1_tail w _ Ht) as (i & Hi & Hp & Hdel).
    assert (Hw1 : pump1 w = more c l (set_pending (delete i (pending w)) w)).
    { by rewrite Hp, (fire_eq _ _ _ _ Hi). }
    destruct (pump_inv 1 w Hinv Hal) as [Hinv1 Hal1]. simpl in Hinv1, Hal1.
    assert (Hst1 : start (trace (pump1 w)) = Some s).
    { rewrite Hw1. unfold more. simpl. by rewrite start_app, Hst. }
    assert (Ht1 : tails (pending (pump1 w)) = [TNextObject c l]).
    { rewrite Hw1. unfold more. simpl. by rewrite tails_app, Hdel. }
    destruct (pump_drain_next _ (pump1 w) s c l Hinv1 Hal1 Hst1 Ht1
                (Nat.le_refl _)) as (n & _ & ? & ?).
    exists (n + 1). by rewrite pump_add.
Qed.

(** Left to run without failure, the tail loop delivers every document
    beyond its starting point. *)
Lemma pump_catches_up w :
  tail_inv w → alive w →
  ∃ n s, start (trace (pump n w)) = Some s ∧
         window s (mark s (trace (pump n w))) (log (pump n w))
         = beyond s (log (pump n w)).
Proof.
  intros Hinv Hal. destruct (pump_starts w Hinv Hal) as (n1 & s & Hs).
  destruct (pump_inv n1 w Hinv Hal) as [Hinv1 Hal1].
  destruct (pump_drain _ s Hinv1 Hal1 Hs) as (n2 & ? & ?).
  exists (n2 + n1), s. by rewrite pump_add.
Qed.

(** ** The sentinel *)

Lemma trace_extends w a : ∃ new, trace (step w a) = trace w ++ new.
Proof.
  step_cases w a; wsimpl; rewrite <- ?app_assoc; try (by eexists);
    try (by exists []; rewrite app_nil_r).
Qed.

Lemma sentinels_mono w a :
  length (sentinels (trace w)) ≤ length (sentinels (trace (step w a))).
Proof.
  destruct (trace_extends w a) as [new ->]. rewrite sentinels_app, length_app.
  lia.
Qed.

Lemma start_mono w a s :
  start (trace w) = Some s → start (trace (step w a)) = Some s.
Proof.
  intros Hs. destruct (trace_extends w a) as [new ->].
  by rewrite start_app, Hs.
Qed.

Lemma step_dead_opened w a :
  tails (pending w) = [] → opened (trace (step w a)) = opened (trace w).
Proof.
  intros Hp. step_cases w a; wsimpl; try done;
    match goal with
    | H : pending ?w0 !! _ = Some ?t |- _ =>
        by pose proof (tails_nil_lookup _ _ _ Hp H)
    end.
Qed.

(** On an empty collection that nobody else writes to, a channel that got
    to listen has asked for exactly one sentinel. *)
Lemma sentinel_step w a :
  tail_inv w → is_foreign a = false →
  (start (trace w) = None → log w = [] ∨ tails (pending w) = []) →
  (is_Some (start (trace w)) → length (sentinels (trace w)) = 1) →
  (start (trace (step w a)) = None →
   log (step w a) = [] ∨ tails (pending (step w a)) = []) ∧
  (is_Some (start (trace (step w a))) →
   length (sentinels (trace (step w a))) = 1).
Proof.
  intros Hinv Ha Hpre Hpost.
  pose proof (tail_inv_step w a Hinv) as Hinv'.
  pose proof (sentinels_mono w a) as Hmono.
  destruct (start (trace w)) as [s|] eqn:Hst.
  { rewrite (start_mono w a s Hst). split; [done|]. intros _.
    destruct Hinv' as (_ & _ & Hle & _).
    specialize (Hpost (mk_is_Some _ _ eq_refl)). lia. }
  destruct Hinv as (Hs & Ht & Hc & Hm). rewrite Hst in Hm.
  destruct Hm as (Hl & Hdel & He & Hlook & Hdum).
  destruct (Hpre eq_refl) as [Hlog|Hdead].
  2:{ destruct (step_dead w a Hdead) as (Hdead' & _).
      split; [by right|]. intros [s Hs'].
      unfold start in *. rewrite (step_dead_opened w a Hdead) in Hs'.
      congruence. }
  clear Hinv' Hpre Hpost.
  step_cases w a; wsimpl; rewrite ?start_app, ?Hst; simpl; try done.
  all: unfold start; wsimpl.
  all: try (split; [intros _; by left | intros [? ?]; done]).
  all: match goal with
    | H : pending ?w0 !! ?i = Some ?t |- _ =>
        pose proof (Forall_lookup_1 _ _ _ _ He H) as Hearly;
        pose proof (list_elem_of_lookup_2 _ _ _ H) as Hin
    end; try done.
  - apply store_find_elem in Heqo. rewrite Hlog in Heqo.
    by apply not_elem_of_nil in Heqo.
  - split; [intros _; right; by eapply tails_delete_nil|by intros [? ?]].
  - split; [done|]. auto.
Qed.

Lemma sentinel_run w acts :
  tail_inv w → existsb is_foreign acts = false →
  (start (trace w) = None → log w = [] ∨ tails (pending w) = []) →
  (is_Some (start (trace w)) → length (sentinels (trace w)) = 1) →
  is_Some (start (trace (run w acts))) →
  length (sentinels (trace (run w acts))) = 1.
Proof.
  revert w. induction acts as [|a acts IH]; intros w Hinv Ha H1 H2; [done|].
  simpl in *. apply orb_false_elim in Ha as [Ha Hacts].
  destruct (sentinel_step w a Hinv Ha H1 H2) as [H3 H4].
  apply IH; [by apply tail_inv_step|done..].
Qed.

Lemma listening_started w :
  tail_inv w → listening w = true → is_Some (start (trace w)).
Proof.
  intros (_ & _ & _ & Hm) Hl. destruct (start (trace w)); [eauto|].
  destruct Hm as (Hl0 & _). congruence.
Qed.

(** No sentinel of the collection is ever handed to a subscriber. *)
Lemma delivered_beyond_start w s d :
  tail_inv w → start (trace w) = Some s → d ∈ delivered (trace w) →
  s < _id d.
Proof.
  intros (_ & _ & _ & Hm) Hst Hd. rewrite Hst in Hm.
  destruct Hm as (_ & _ & _ & Hdel & _).
  assert (_id d ∈ ids (delivered (trace w))) as Hin.
  { apply list_elem_of_fmap. eauto. }
  rewrite Hdel in Hin. apply list_elem_of_fmap in Hin as (y & -> & Hy).
  apply list_elem_of_filter in Hy as [? _]. lia.
Qed.

Lemma delivered_started w d :
  tail_inv w → d ∈ delivered (trace w) → is_Some (start (trace w)).
Proof.
  intros (_ & _ & _ & Hm) Hd. destruct (start (trace w)); [eauto|].
  destruct Hm as (_ & Hnil & _). rewrite Hnil in Hd.
  by apply not_elem_of_nil in Hd.
Qed.

Lemma sentinel_not_delivered w d x :
  tail_inv w → d ∈ delivered (trace w) → x ∈ log w → dummy x = true →
  _id d ≠ _id x.
Proof.
  intros Hinv Hd Hx Hdum.
  destruct (delivered_started w d Hinv Hd) as [s Hst].
  pose proof (delivered_beyond_start w s d Hinv Hst Hd).
  destruct Hinv as (_ & _ & _ & Hm). rewrite Hst in Hm.
  destruct Hm as (_ & _ & _ & _ & _ & Hall & _).
  pose proof (proj1 (Forall_forall _ _) Hall x Hx Hdum). lia.
Qed.

(** Delivered records come in natural order, one after the other. *)
Lemma window_prefix s m l :
  StronglySorted lt (ids l) → s ≤ m →
  beyond s l = window s m l ++ beyond m l.
Proof.
  intros Hs Hm. induction l as [|x l IH]; [done|].
  unfold ids in Hs. rewrite fmap_cons in Hs.
  apply StronglySorted_cons in Hs as [Hx Hs]. rewrite Forall_fmap in Hx.
  unfold beyond, window in *. rewrite !filter_cons.
  destruct (decide (_id x ≤ m)).
  - rewrite (decide_False (P := m < _id x)) by lia.
    rewrite IH by done.
    destruct (decide (s < _id x)).
    + by rewrite decide_True by lia.
    + by rewrite decide_False by lia.
  - rewrite !decide_True by lia. rewrite decide_False by lia.
    assert (Hnil : filter (λ d, s < _id d ≤ m) l = []).
    { apply window_above. eapply Forall_impl; [exact Hx|]. simpl. lia. }
    rewrite Hnil. simpl. rewrite decide_True by lia. f_equal.
    clear -Hx Hm n. induction Hx as [|y l Hy _ IH]; [done|].
    simpl in Hy. rewrite !filter_cons, !decide_True by lia. by rewrite IH.
Qed.

(** ** Nothing stays parked on a channel that listens *)

Lemma parked_emit1 name p w n :
  parked PColl (listeners w n) = [] →
  parked PColl (listeners (emit name p w) n) = [].
Proof.
  intros Hq. rewrite listeners_emit. case_decide; [apply parked_filter|done].
Qed.

Lemma parked_on_next1 c l d w n :
  parked PColl (listeners w n) = [] →
  parked PColl (listeners (on_next c l (Some d) w) n) = [].
Proof.
  intros Hq. destruct (data_ok d) eqn:Hok.
  - destruct (data_ok_inv d Hok) as (e & rest & He & Ha & _).
    rewrite (on_next_data _ _ _ _ e rest) by done. rewrite listeners_request.
    by do 3 apply parked_emit1.
  - rewrite on_next_plain by done. rewrite listeners_request.
    by apply parked_emit1.
Qed.

Lemma parked_on_latest_ready d w :
  parked PColl (listeners (on_latest d w) "ready") = [].
Proof.
  unfold on_latest, more. rewrite listeners_emit.
  rewrite decide_True by done. apply parked_filter.
Qed.

Lemma step_listening_unqueued w a :
  (listening w = true → queued w "ready" = []) →
  listening (step w a) = true → queued (step w a) "ready" = [].
Proof.
  unfold queued. intros Hq.
  step_cases w a; wsimpl; rewrite ?parked_on_latest_ready; try done;
    try (intros Hl; first [specialize (Hq Hl)|specialize (Hq eq_refl)]);
    try congruence;
    repeat first
      [ done
      | apply parked_emit1
      | apply parked_on_next1
      | progress wsimpl ].
  - rewrite listeners_on. case_decide; [|done].
    by rewrite parked_app, Hq.
  - rewrite listeners_removeAll. by case_decide.
Qed.

Lemma run_listening_unqueued w acts :
  (listening w = true → queued w "ready" = []) →
  listening (run w acts) = true → queued (run w acts) "ready" = [].
Proof.
  revert w. induction acts as [|a acts IH]; intros w Hq; [done|].
  simpl. apply IH. by apply step_listening_unqueued.
Qed.

Lemma Channel_unqueued o store acts :
  listening (run (Channel o store) acts) = true →
  queued (run (Channel o store) acts) "ready" = [].
Proof. by apply run_listening_unqueued. Qed.

Lemma calls_insert_calls l :
  calls (insert_call <$> l) = (λ x, CInsert x.1 x.2) <$> l.
Proof.
  induction l as [|x l IH]; [done|]. rewrite !fmap_cons.
  change (calls (insert_call x :: (insert_call <$> l)))
    with (CInsert x.1 x.2 :: calls (insert_call <$> l)).
  by rewrite IH.
Qed.

Lemma pending_request c t w : pending (request c t w) = pending w ++ [t].
Proof. done. Qed.
Lemma trace_request c t w : trace (request c t w) = trace w ++ [OCall c].
Proof. done. Qed.
Lemma pending_set_pending p w : pending (set_pending p w) = p.
Proof. done. Qed.
Lemma trace_set_pending p w : trace (set_pending p w) = trace w.
Proof. done. Qed.

Lemma fire_last w t o :
  fire (length (pending w)) o (schedule t w) =
  default (schedule t w) (complete t o w).
Proof.
  unfold fire, schedule. simpl. rewrite list_lookup_middle by done.
  rewrite <- (app_nil_r (pending w ++ [t])), <- app_assoc. simpl.
  rewrite delete_middle, app_nil_r. by destruct w.
Qed.

(** ** From the constructor to a quiet run *)

Lemma alive_Channel o store : alive (Channel o store).
Proof.
  unfold alive. simpl. split_and!; [done..|]. by exists (TThen None).
Qed.

Lemma alive_subscribe w ev cb : alive w → alive (step w (Subscribe ev cb)).
Proof.
  intros (Hc & Hd & t & Ht & Hk). unfold alive. simpl. unfold subscribe.
  wsimpl. split_and!; [done..|]. by exists t.
Qed.

Lemma quiet_keeps_registry a : quiet a = true → keeps_registry a = true.
Proof. by destruct a. Qed.

Lemma alive_run w acts :
  alive w → forallb quiet acts = true → alive (run w acts).
Proof.
  revert w. induction acts as [|a acts IH]; intros w Hal Ha; [done|].
  simpl in *. apply andb_prop in Ha as [Ha Hacts].
  apply IH; [by apply alive_step|done].
Qed.

Lemma forallb_quiet_keeps acts :
  forallb quiet acts = true → forallb keeps_registry acts = true.
Proof.
  induction acts as [|a acts IH]; [done|]. simpl.
  intros [Ha Hacts]%andb_prop. by rewrite quiet_keeps_registry, IH.
Qed.

(** Subscribing before anything else happens. *)
Lemma subscribe_run w subs :
  forallb is_subscribe subs = true →
  alive w → start (trace w) = None → data_obs (trace w) = [] →
  alive (run w subs) ∧ start (trace (run w subs)) = None ∧
  data_obs (trace (run w subs)) = [].
Proof.
  revert w. induction subs as [|a subs IH]; intros w Hs Hal Hst Hd; [done|].
  simpl in *. apply andb_prop in Hs as [Ha Hsubs].
  destruct a as [| ev cb| | | | |]; try done.
  apply IH; [done|by apply alive_subscribe|..].
  - simpl. unfold subscribe. wsimpl. by rewrite start_app, Hst.
  - simpl. unfold subscribe. by wsimpl.
Qed.

(** A publish is inserted beyond the point where the channel started. *)
Lemma insert_beyond_start w i ev a :
  tail_inv w → pending w !! i = Some (TInsert ev a) →
  ∃ s, start (trace w) = Some s ∧ s < fresh_id (log w) ∧
       log (fire i Done w) = log w ++ [Doc (fresh_id (log w)) (Some ev) a false].
Proof.
  intros (_ & _ & _ & Hm) Hi. destruct (start (trace w)) as [s|].
  - destruct Hm as (_ & Hin & Hle & _). exists s. split_and!; [done| |].
    + apply fresh_id_gt_ids in Hin. lia.
    + by rewrite (fire_eq _ _ _ _ Hi).
  - destruct Hm as (_ & _ & He & _).
    by pose proof (Forall_lookup_1 _ _ _ _ He Hi).
Qed.

(** * The claims *)

(** ** Closing *)

(** C7. [close] sets [closed]; closing twice is closing once; and from then
    on, whatever completes and whatever is called (a pull that was in
    flight, an error from the store, further publishes), no data event and
    no ['document'] event is emitted: the function built by [handle]
    returns at once on a closed channel. *)
Theorem C7_close_stops_delivery (w : world) (acts : list action)
    (exit : bool) (k : world → world) (err : option string) :
  closed (close w) = true ∧
  close (close w) = close w ∧
  handle exit k err (close w) = close w ∧
  closed (run (close w) acts) = true ∧
  record_obs (trace (run (close w) acts)) = record_obs (trace w).
Proof.
  split_and!; [done|done|by apply handle_closed| |].
  - by apply run_closed.
  - by destruct (run_closed (close w) acts eq_refl) as [_ ->].
Qed.

(** ** Unsubscribing *)



(** C9. [unsubscribe()] removes every listener of the emitter, the parked
    [once('ready', ...)] closures of [publish] with the rest: a publish made
    before the channel was ready is then forgotten. Nothing is inserted for
    it, then or later, and no ['error'] is emitted. *)
Theorem C9_unsubscribe_drops_parked_publish (w : world) (ev : string)
    (a : list value) (acts : list action)
    (Hl : listening w = false) (Hacts : existsb is_publish acts = false) :
  let w1 := publish ev a w in
  let w2 := unsubscribe None w1 in
  listeners w1 "ready" = listeners w "ready" ++ [Queued ev (VStr ev :: a)] ∧
  trace w1 = trace w ∧ pending w1 = pending w ∧
  (∀ n, listeners w2 n = []) ∧
  trace w2 = trace w ++ [OEmit "unsubscribe" (PEvent None) []] ∧
  errors (trace w2) = errors (trace w) ∧
  pending w2 = pending w ∧ log w2 = log w ∧
  inserts (trace (run w2 acts)) = inserts (trace w).
Proof.
  intros w1 w2. subst w1 w2. unfold publish. rewrite Hl.
  assert (Hnone : ∀ n, listeners (unsubscribe None
            (on "ready" (Queued ev (VStr ev :: a)) w)) n = []).
  { intros n. unfold unsubscribe. rewrite listeners_emit, listeners_removeAll.
    by case_decide. }
  assert (Htr : trace (unsubscribe None (on "ready" (Queued ev (VStr ev :: a)) w))
                = trace w ++ [OEmit "unsubscribe" (PEvent None) []]).
  { unfold unsubscribe. by wsimpl. }
  split_and!; try done.
  - rewrite listeners_on. by case_decide.
  - rewrite Htr. by wsimpl.
  - rewrite run_unqueued; [|intros n; unfold queued; by rewrite Hnone|done].
    rewrite Htr. by wsimpl.
Qed.

Lemma C9_witness :
  let w := Channel (Options None None None None) [] in
  let acts := [Fire 0 Done; Fire 0 Done; Fire 0 Done; Subscribe (Some "a") 1] in
  let w1 := publish "a" [VStr "x"] w in
  let w2 := unsubscribe None w1 in
  listening w = false ∧
  existsb is_publish acts = false ∧
  listeners w1 "ready" = listeners w "ready" ++ [Queued "a" [VStr "a"; VStr "x"]] ∧
  trace w1 = trace w ∧ pending w1 = pending w ∧
  (∀ n, listeners w2 n = []) ∧
  trace w2 = trace w ++ [OEmit "unsubscribe" (PEvent None) []] ∧
  errors (trace w2) = errors (trace w) ∧
  pending w2 = pending w ∧ log w2 = log w ∧
  inserts (trace (run w2 acts)) = inserts (trace w).
Proof.
  intros w acts w1 w2. split; [reflexivity|]. split; [reflexivity|].
  apply (C9_unsubscribe_drops_parked_publish w "a" [VStr "x"] acts);
    reflexivity.
Defined.

(** ** Publishing on a closed channel *)



(** ** Dispatch of a record *)






(** ** Errors once closed *)




(** ** A cursor that died *)



(** ** The sentinel *)

(** C6. A channel created on an empty collection asks for at most one
    sentinel, and for exactly one by the time it listens (and so by the time
    any publish is inserted) when nobody else writes to the collection. No
    record handed to ['document'] observers, hence no dispatch at all, has
    the [_id] of a sentinel of the collection: every cursor is opened after
    an [_id] that no sentinel exceeds, and returns only what lies beyond. *)
Theorem C6_one_sentinel_never_delivered (o : options) (acts : list action) :
  let w := run (Channel o []) acts in
  length (sentinels (trace w)) ≤ 1 ∧
  (existsb is_foreign acts = false → listening w = true →
   length (sentinels (trace w)) = 1) ∧
  (∀ d x, d ∈ delivered (trace w) → x ∈ log w → dummy x = true →
          _id d ≠ _id x) ∧
  (∀ a x, a ∈ opened (trace w) → x ∈ log w → dummy x = true → _id x ≤ a) ∧
  (∀ c d c', cursor_next c (log w) = Some (d, c') → c_after c < _id d).
Proof.
  intros w.
  assert (H0 : tail_inv (Channel o [])) by (apply tail_inv_Channel; constructor).
  assert (Hinv : tail_inv w) by (by apply tail_inv_run).
  split_and!.
  - by destruct Hinv as (_ & _ & ? & _).
  - intros Hf Hl. apply sentinel_run; try done.
    + intros _. by left.
    + by intros [? ?].
    + by apply listening_started.
  - intros d x. by apply sentinel_not_delivered.
  - intros a x Ha Hx Hdum. destruct Hinv as (_ & _ & _ & Hm).
    destruct (start (trace w)) as [s|] eqn:Hst.
    + destruct Hm as (_ & _ & _ & _ & _ & Hall & Hop).
      pose proof (proj1 (Forall_forall _ _) Hall x Hx Hdum) as H1.
      pose proof (proj1 (Forall_forall _ _) Hop a Ha) as H2.
      simpl in H1, H2. lia.
    + unfold start in Hst. destruct (opened (trace w)); [|done].
      by apply not_elem_of_nil in Ha.
  - intros c d c' Hnext. unfold cursor_next in Hnext.
    by apply scan_Some in Hnext as (_ & _ & _ & _ & ? & _).
Qed.

Lemma C6_witness :
  let acts := [Publish "a" [VStr "x"]; Fire 0 Done; Fire 0 Done; Fire 0 Done;
               Fire 1 Done; Fire 0 Done] in
  let w := run (Channel (Options None None None None) []) acts in
  let x := Doc 1 None [] true in
  let d := Doc 2 (Some "a") [VStr "message"; VStr "x"] false in
  existsb is_foreign acts = false ∧ listening w = true ∧
  d ∈ delivered (trace w) ∧ x ∈ log w ∧ dummy x = true ∧ 1 ∈ opened (trace w) ∧
  length (sentinels (trace w)) = 1 ∧ _id d ≠ _id x ∧ _id x ≤ 1.
Proof.
  intros acts w x d.
  assert (Hd : d ∈ delivered (trace w)) by (vm_compute; left).
  assert (Hx : x ∈ log w) by (vm_compute; left).
  assert (Ha : 1 ∈ opened (trace w)) by (vm_compute; left).
  destruct (C6_one_sentinel_never_delivered (Options None None None None) acts)
    as (_ & H1 & H2 & H3 & _).
  split; [reflexivity|]. split; [reflexivity|].
  split; [exact Hd|]. split; [exact Hx|]. split; [reflexivity|].
  split; [exact Ha|]. split; [apply H1; reflexivity|].
  split; [apply (H2 d x Hd Hx); reflexivity|apply (H3 1 x Ha Hx); reflexivity].
Defined.

(** ** Order of delivery *)

Lemma sorted_ids_NoDup l : StronglySorted lt (ids l) → NoDup (ids l).
Proof.
  unfold ids. induction l as [|x l IH]; [constructor|].
  rewrite fmap_cons. intros [Hx Hl]%StronglySorted_cons.
  constructor; [|by apply IH].
  intros Hin. pose proof (proj1 (Forall_forall _ _) Hx _ Hin). lia.
Qed.

Lemma window_NoDup s m l : StronglySorted lt (ids l) → NoDup (ids (window s m l)).
Proof.
  unfold ids, window. induction l as [|x l IH]; [constructor|].
  rewrite fmap_cons. intros [Hx Hl]%StronglySorted_cons.
  rewrite filter_cons. destruct (decide _); [|by apply IH].
  rewrite fmap_cons. constructor; [|by apply IH].
  intros (y & Hy & Hin)%list_elem_of_fmap.
  apply list_elem_of_filter in Hin as [_ Hin].
  assert (_id y ∈ _id <$> l) as Hin' by (apply list_elem_of_fmap; eauto).
  pose proof (proj1 (Forall_forall _ _) Hx _ Hin'). lia.
Qed.



(** The run of [C1_witness], evaluated: the store committed "b" before "a",
    and that is the order in which the subscribers saw them. *)
Example C1_run :
  let w := run (Channel (Options None None None None) [])
             [Subscribe (Some "a") 1; Subscribe None 2;
              Publish "a" [VStr "x"]; Fire 0 Done; Fire 0 Done; Fire 0 Done;
              Publish "b" []; Fire 2 Done; Fire 1 Done; Fire 0 Done;
              Fire 0 Done; Fire 0 Done] in
  ids (log w) = [1; 2; 3] ∧
  data_obs (trace w) =
    [("b", [], []); ("message", [], [2]);
     ("a", [VStr "x"], [1]); ("message", [VStr "x"], [2])].
Proof. intros w. split; reflexivity. Qed.

(** * Beyond the claims *)

(** ** The constructor's options *)

Lemma retries_app t1 t2 : retries (t1 ++ t2) = retries t1 ++ retries t2.
Proof. apply omap_app. Qed.
Lemma retries_insert_calls l : retries (insert_call <$> l) = [].
Proof. induction l; done. Qed.
Lemma retries_dispatch w d : retries (dispatch_obs w d) = [].
Proof.
  unfold dispatch_obs, data_events. destruct (event d), (data_ok d); done.
Qed.
Lemma retry_on_next c l d w : retry (on_next c l (Some d) w) = retry w.
Proof. apply on_next_frame. Qed.
Lemma retry_on_latest d w : retry (on_latest d w) = retry w.
Proof. apply on_latest_frame. Qed.
Lemma retry_on m l w : retry (on m l w) = retry w.
Proof. done. Qed.
Lemma retry_removeAll e w : retry (removeAllListeners e w) = retry w.
Proof. by destruct e. Qed.

#[global] Hint Rewrite retries_app retries_insert_calls retries_dispatch
  retry_on_next retry_on_latest retry_on retry_removeAll : world.

Lemma step_options w a :
  Forall (λ r, r = retry w) (retries (trace w)) →
  retry (step w a) = retry w ∧ recreates (step w a) = recreates w ∧
  Forall (λ r, r = retry w) (retries (trace (step w a))).
Proof.
  intros H. step_cases w a; wsimpl; rewrite ?Forall_app; try done.
  all: split_and!; try done; by repeat constructor.
Qed.

(** X1. The options are read once. Whatever happens afterwards, every cursor
    the channel opens is given [retryInterval || 200] as its retry interval
    (never 0), and [recreate] stays [true] unless the caller passed a value. *)
Theorem X1_options_fixed_by_constructor (o : options) (store : list doc)
    (acts : list action) :
  let w := run (Channel o store) acts in
  let r := match retryInterval o with Some (S n) => S n | _ => 200 end in
  0 < r ∧
  Forall (λ x, x = r) (retries (trace w)) ∧
  recreates w = match recreate o with Some b => b | None => true end.
Proof.
  intros w r.
  assert (Hgen : ∀ w0, Forall (λ x, x = retry w0) (retries (trace w0)) →
            retry (run w0 acts) = retry w0 ∧
            recreates (run w0 acts) = recreates w0 ∧
            Forall (λ x, x = retry w0) (retries (trace (run w0 acts)))).
  { induction acts as [|a acts IH]; intros w0 H0; [done|]. simpl.
    destruct (step_options w0 a H0) as (H1 & H2 & H3).
    rewrite <- H1 in H3. destruct (IH _ H3) as (H4 & H5 & H6).
    rewrite H1 in H4, H6. rewrite H2 in H5. done. }
  destruct (Hgen (Channel o store)) as (_ & H2 & H3); [constructor|].
  split_and!.
  - subst r. destruct (retryInterval o) as [[|n]|]; lia.
  - exact H3.
  - exact H2.
Qed.

(** ** subscribe and unsubscribe *)

Lemma queued_on_user w m cb n : queued (on m (User cb) w) n = queued w n.
Proof.
  unfold queued. rewrite listeners_on. destruct (decide (n = m)); [|done].
  rewrite parked_app. simpl. unfold parked at 2. simpl. by rewrite app_nil_r.
Qed.

Lemma queued_emit_other name p w n :
  n ≠ name → queued (emit name p w) n = queued w n.
Proof.
  intros Hn. unfold queued. rewrite listeners_emit.
  by destruct (decide (n = name)).
Qed.

(** X2. [subscribe(event, cb)] registers [cb] behind the callbacks already
    registered for the event, so that an emission calls them in registration
    order; an omitted event stands for ['message']; the callbacks under
    every other name stay as they are, and neither the store nor the event
    loop is touched. *)
Theorem X2_subscribe_registers_last (w : world) (ev : option string)
    (cb : nat) (n : string) (p : payload) :
  let e := default "message" ev in
  let w' := subscribe ev cb w in
  subscribers w' e = subscribers w e ++ [cb] ∧
  (n ≠ e → subscribers w' n = subscribers w n) ∧
  queued w' "ready" = queued w "ready" ∧
  pending w' = pending w ∧ log w' = log w ∧
  invocations (trace (emit e p w')) =
    invocations (trace w') ++ subscribers w e ++ [cb].
Proof.
  intros e w'. subst w'. unfold subscribe. fold e.
  assert (H1 : subscribers (emit "subscribe" (PEvent (Some e))
                              (on e (User cb) w)) e
               = subscribers w e ++ [cb]).
  { rewrite subscribers_emit, subscribers_on_user. by rewrite decide_True. }
  split_and!.
  - exact H1.
  - intros Hn. rewrite subscribers_emit, subscribers_on_user.
    by rewrite decide_False.
  - rewrite queued_emit_other by done. apply queued_on_user.
  - rewrite pending_emit. wsimpl. done.
  - by wsimpl.
  - rewrite (trace_emit e p). rewrite H1, invocations_app. wsimpl.
    done.
Qed.

Lemma X2_witness :
  "a" ≠ default "message" None ∧
  subscribers (subscribe None 1 (Channel (Options None None None None) [])) "a"
  = subscribers (Channel (Options None None None None) []) "a".
Proof.
  split; [done|].
  apply (X2_subscribe_registers_last _ None 1 "a" PColl). done.
Defined.

(** X3. Both calls notify after they have changed the registry:
    [subscribe] emits ['subscribe'] with the event name once the callback is
    registered, so a callback registered under ['subscribe'] is told of its
    own registration; [unsubscribe] emits ['unsubscribe'] once the callbacks
    are gone, so [unsubscribe()] and [unsubscribe('unsubscribe')] tell
    nobody, and [unsubscribe(e)] tells the callbacks under
    ['unsubscribe']. *)
Theorem X3_notified_after_the_change (w : world) (ev : option string)
    (cb : nat) (e : string) :
  let name := default "message" ev in
  trace (subscribe ev cb w) =
    trace w ++ [OEmit "subscribe" (PEvent (Some name))
                  (subscribers w "subscribe" ++
                   if decide (name = "subscribe") then [cb] else [])] ∧
  trace (unsubscribe None w) =
    trace w ++ [OEmit "unsubscribe" (PEvent None) []] ∧
  trace (unsubscribe (Some e) w) =
    trace w ++ [OEmit "unsubscribe" (PEvent (Some e))
                  (if decide (e = "unsubscribe") then []
                   else subscribers w "unsubscribe")].
Proof.
  intros name. unfold subscribe, unsubscribe. fold name.
  rewrite !trace_emit. wsimpl. rewrite subscribers_on_user.
  split_and!; try done.
  - destruct (decide ("subscribe" = name)) as [<-|Hn].
    + by rewrite decide_True.
    + rewrite decide_False by done. by rewrite app_nil_r.
  - destruct (decide ("unsubscribe" = e)) as [<-|Hn].
    + by rewrite decide_True.
    + by rewrite decide_False.
Qed.

(** ** handle *)

Lemma creations_app t1 t2 : creations (t1 ++ t2) = creations t1 ++ creations t2.
Proof. apply omap_app. Qed.
Lemma creations_insert_calls l : creations (insert_call <$> l) = [].
Proof. induction l; done. Qed.
Lemma creations_dispatch w d : creations (dispatch_obs w d) = [].
Proof.
  unfold dispatch_obs, data_events. destruct (event d), (data_ok d); done.
Qed.

#[global] Hint Rewrite creations_app creations_insert_calls
  creations_dispatch : world.

(** Once the channel is closed or its connection destroyed, no callback
    built by [handle] does anything: no record is handed over, no cursor is
    opened, and the channel does not change its mind about listening. *)
Lemma step_stopped w a :
  closed w || destroyed w = true →
  closed (step w a) || destroyed (step w a) = true ∧
  (destroyed w = true → destroyed (step w a) = true) ∧
  record_obs (trace (step w a)) = record_obs (trace w) ∧
  opened (trace (step w a)) = opened (trace w) ∧
  listening (step w a) = listening w.
Proof.
  intros H. step_cases w a; wsimpl; try done; try congruence.
  all: try (split_and!; try done; by rewrite ?orb_true_r).
Qed.

Lemma run_stopped w acts :
  closed w || destroyed w = true →
  closed (run w acts) || destroyed (run w acts) = true ∧
  (destroyed w = true → destroyed (run w acts) = true) ∧
  record_obs (trace (run w acts)) = record_obs (trace w) ∧
  opened (trace (run w acts)) = opened (trace w) ∧
  listening (run w acts) = listening w.
Proof.
  revert w. induction acts as [|a acts IH]; intros w H; [done|].
  simpl. destruct (step_stopped w a H) as (H1 & H2 & H3 & H4 & H5).
  destruct (IH _ H1) as (? & ? & ? & ? & ?).
  split_and!; [done|auto|congruence..].
Qed.

(** X4. A destroyed connection stops the channel as [close] does: once
    [connection.destroyed] holds, whatever is called and whatever the store
    answers, no data event and no ['document'] is emitted any more, no
    cursor is opened, and a channel that was not listening never becomes
    ready. *)
Theorem X4_destroyed_connection_stops_delivery (w : world)
    (acts : list action) :
  destroyed w = true →
  let w' := run w acts in
  destroyed w' = true ∧
  record_obs (trace w') = record_obs (trace w) ∧
  opened (trace w') = opened (trace w) ∧
  listening w' = listening w.
Proof.
  intros H w'. destruct (run_stopped w acts) as (_ & H2 & H3 & H4 & H5).
  { by rewrite H, orb_true_r. }
  split_and!; auto.
Qed.

Lemma X4_witness :
  let w := step (Channel (Options None None None None) []) Destroy in
  destroyed w = true ∧
  listening (run w [Fire 0 Done; Fire 0 Done; Fire 0 Done]) = listening w.
Proof.
  split; [done|].
  apply (X4_destroyed_connection_stops_delivery
           (step (Channel (Options None None None None) []) Destroy)
           [Fire 0 Done; Fire 0 Done; Fire 0 Done]).
  done.
Defined.

(** X5. A pull that fails on an open channel is reported and then treated
    as a dead cursor: ['error'] carries the store's error, the 1000 ms timer
    is armed and no pull is left; when the timer fires, ['error'] is emitted
    a second time with the broken-cursor message, and with [recreate] the
    collection is created anew. *)
Theorem X5_pull_error_then_broken_cursor (w : world) (i : nat) (cur : cursor)
    (latest : doc) (e : string) :
  closed w = false → destroyed w = false →
  pending w !! i = Some (TNextObject cur latest) →
  let w1 := fire i (Failed e) w in
  let w2 := fire (length (delete i (pending w))) Done w1 in
  errors (trace w1) = errors (trace w) ++ [e] ∧
  calls (trace w1) = calls (trace w) ++ [CSetTimeout 1000] ∧
  pending w1 = delete i (pending w) ++ [TTimeout latest] ∧
  errors (trace w2) = errors (trace w) ++ [e; broken_cursor] ∧
  calls (trace w2) =
    calls (trace w) ++ CSetTimeout 1000 ::
      (if recreates w then [CCreateCollection] else []) ∧
  pending w2 = delete i (pending w) ++
      (if recreates w then [TThen (Some latest)] else []).
Proof.
  intros Hc Hd Hi w1 w2.
  assert (Hw1 : w1 = schedule (TTimeout latest)
            (observe (OCall (CSetTimeout 1000))
               (emit "error" (PErr e) (set_pending (delete i (pending w)) w)))).
  { subst w1. rewrite (fire_eq _ _ _ _ Hi). simpl.
    rewrite handle_open by done. by wsimpl. }
  assert (Hlen : length (delete i (pending w)) =
                 length (pending (observe (OCall (CSetTimeout 1000))
               (emit "error" (PErr e) (set_pending (delete i (pending w)) w))))).
  { simpl. rewrite pending_emit. wsimpl. by rewrite ?app_nil_r. }
  assert (Hw2 : w2 = on_timeout latest
            (observe (OCall (CSetTimeout 1000))
               (emit "error" (PErr e) (set_pending (delete i (pending w)) w)))).
  { subst w2. rewrite Hw1, Hlen, fire_last. done. }
  rewrite Hw1, Hw2. unfold on_timeout. rewrite recreates_emit. simpl.
  rewrite recreates_emit. simpl.
  destruct (recreates w); simpl; rewrite ?trace_emit, ?pending_emit; wsimpl;
    rewrite ?trace_emit, ?pending_emit; wsimpl;
    rewrite <- ?app_assoc; simpl; done.
Qed.

Lemma X5_witness :
  let w := run (Channel (Options None None None None) [])
             [Fire 0 Done; Fire 0 Done; Fire 0 Done] in
  let c := Cursor 1 0 in
  let latest := Doc 1 None [] true in
  closed w = false ∧ destroyed w = false ∧
  pending w !! 0 = Some (TNextObject c latest) ∧
  errors (trace (fire 0 Done (fire 0 (Failed "down") w))) =
    ["down"; broken_cursor].
Proof.
  intros w c latest.
  split; [reflexivity|]. split; [reflexivity|]. split; [reflexivity|].
  apply (X5_pull_error_then_broken_cursor w 0 c latest "down"); reflexivity.
Defined.

Lemma step_dead_more w a :
  tails (pending w) = [] →
  listening (step w a) = listening w ∧
  creations (trace (step w a)) = creations (trace w) ∧
  (listening w = false → inserts (trace (step w a)) = inserts (trace w)).
Proof.
  intros Hp. step_cases w a; wsimpl; try done;
    try match goal with
    | H : pending w !! _ = Some ?t |- _ =>
        by pose proof (tails_nil_lookup _ _ _ Hp H)
    end.
  all: try (split_and!; [done..|congruence]).
Qed.

Lemma run_dead_more w acts :
  tails (pending w) = [] →
  listening (run w acts) = listening w ∧
  creations (trace (run w acts)) = creations (trace w) ∧
  opened (trace (run w acts)) = opened (trace w) ∧
  (listening w = false → inserts (trace (run w acts)) = inserts (trace w)).
Proof.
  revert w. induction acts as [|a acts IH]; intros w Hp; [done|].
  simpl. destruct (step_dead w a Hp) as (Hp' & _).
  destruct (step_dead_more w a Hp) as (H1 & H2 & H3).
  pose proof (step_dead_opened w a Hp) as H4.
  destruct (IH _ Hp') as (? & ? & ? & Hi).
  split_and!; [congruence..|].
  intros Hl. rewrite Hi by congruence. auto.
Qed.

(** X6. A failure reported to [latest] (the collection cannot be created,
    the lookup or the sentinel insert fails) on an open channel is final:
    ['error'] is emitted once and nothing of the tail protocol is left, with
    or without [recreate]. Whatever is called afterwards, no collection is
    created again, no cursor is opened, no record is delivered; a channel
    that was not listening never becomes ready, so every publish stays
    parked and nothing is ever inserted. *)
Theorem X6_resolve_failure_is_final (w : world) (i : nat) (t : task)
    (e : string) (later : list action) :
  closed w = false → destroyed w = false →
  length (tails (pending w)) ≤ 1 →
  pending w !! i = Some t → is_resolving t = true →
  let w1 := fire i (Failed e) w in
  let w2 := run w1 later in
  errors (trace w1) = errors (trace w) ++ [e] ∧
  tails (pending w2) = [] ∧
  creations (trace w2) = creations (trace w) ∧
  opened (trace w2) = opened (trace w) ∧
  record_obs (trace w2) = record_obs (trace w) ∧
  listening w2 = listening w ∧
  (listening w = false → inserts (trace w2) = inserts (trace w)).
Proof.
  intros Hc Hd Hlen Hi Ht w1 w2.
  assert (Htail : is_tail t = true) by (by destruct t).
  destruct (tails_only _ _ _ Hlen Hi Htail) as (_ & Hdel).
  assert (Hw1 : w1 = emit "error" (PErr e) (set_pending (delete i (pending w)) w)).
  { subst w1. rewrite (fire_eq _ _ _ _ Hi).
    destruct t; try done; simpl; by rewrite handle_open. }
  assert (Hdead : tails (pending w1) = []).
  { rewrite Hw1, pending_emit. wsimpl. by rewrite ?app_nil_r. }
  destruct (run_dead w1 later Hdead) as (H1 & H2 & _).
  destruct (run_dead_more w1 later Hdead) as (H3 & H4 & H5 & H6).
  fold w2 in H1, H2, H3, H4, H5, H6.
  rewrite H2, H3, H4, H5. rewrite Hw1 in *.
  rewrite !trace_emit. wsimpl.
  split_and!; try done. intros Hl. rewrite H6; [|by wsimpl].
  rewrite trace_emit. by wsimpl.
Qed.

Lemma X6_witness :
  let w := Channel (Options None None None (Some true)) [] in
  let later := [Publish "a" []; Fire 0 Done; Publish "b" []] in
  closed w = false ∧ destroyed w = false ∧
  length (tails (pending w)) ≤ 1 ∧
  pending w !! 0 = Some (TThen None) ∧
  inserts (trace (run (fire 0 (Failed "refused") w) later)) = inserts (trace w).
Proof.
  intros w later.
  split; [reflexivity|]. split; [reflexivity|]. split; [simpl; lia|].
  split; [reflexivity|].
  apply (X6_resolve_failure_is_final w 0 (TThen None) "refused" later);
    reflexivity.
Defined.
